(** * Constrained interpolation in OMPL: [Constraint] and
      [NullspaceStateSpace::traverseManifold]

    A shallow embedding of
    - [src/ompl/base/src/Constraint.cpp] (numeric Jacobian, Newton
      projection, distance and satisfaction tests), and
    - [src/ompl/base/spaces/src/NullspaceStateSpace.cpp] (space check and
      manifold traversal),
    and the properties of them that the specification states.

    Conventions of the embedding.
    - A C++ [double] is a real number: arithmetic is exact, there is no
      rounding, no NaN and no infinity.  [std::numeric_limits<double>::epsilon()]
      is the real number [2^-52].
    - An [Eigen::VectorXd] is a [list R]; an [Eigen::MatrixXd] is the list of
      its columns.
    - An [unsigned int] is an integer in [0, 2^32) whose increment wraps.
      [projectionMaxIterations_] is declared in [Constraint.h]; it is taken
      to be an [unsigned int], like the counter [iter] it is compared with.
    - Indexing follows stdpp: a read out of range gives [0] and a write out
      of range does nothing.  The code indexes vectors of [n_] coordinates and
      matrices of [n_] columns with [j < n_] only, and the statements below
      carry these sizes as hypotheses where they matter.
    - The Eigen factorisations ([colPivHouseholderQr().solve],
      [fullPivLu().solve], [fullPivLu().kernel]) and the collaborators of the
      state space (validity checker, ambient distance and interpolation,
      segment count) are not part of these two files: they are parameters. *)

From Stdlib Require Import Reals Lra Lia ZArith.
From stdpp Require Import base decidable option list strings.

Open Scope R_scope.

(** ** Scalars *)

#[global] Instance R_inhabited : Inhabited R := populate 0.
#[global] Instance Rlt_decision (a b : R) : Decision (a < b) := Rlt_dec a b.
#[global] Instance Rle_decision (a b : R) : Decision (a <= b) := Rle_dec a b.
#[global] Instance Rgt_decision (a b : R) : Decision (a > b) := Rgt_dec a b.
#[global] Instance Rge_decision (a b : R) : Decision (a >= b) := Rge_dec a b.

(** [std::numeric_limits<double>::epsilon()] for IEEE binary64. *)
Definition epsilon : R := / 2 ^ 52.

(** ** Vectors and matrices *)

Abbreviation Vector := (list R).

(** A matrix is stored by columns: [out.col(j)] is the [j]-th element. *)
Abbreviation Matrix := (list (list R)).

Definition vadd (a b : Vector) : Vector := zip_with Rplus a b.
Definition vsub (a b : Vector) : Vector := zip_with Rminus a b.
Definition vscale (c : R) (a : Vector) : Vector := map (Rmult c) a.
Definition vdiv (a : Vector) (c : R) : Vector := map (fun v => v / c) a.
Definition vzero (rows : nat) : Vector := replicate rows 0.

Definition dot (a b : Vector) : R := foldr Rplus 0 (zip_with Rmult a b).

(** [v.norm()]: the Euclidean norm. *)
Definition norm (a : Vector) : R := sqrt (dot a a).

(** [M * v] for a matrix of [rows] rows: the combination of the columns of
    [M] with the coefficients of [v].  Eigen's product is defined only when
    [M] has as many columns as [v] has coefficients ([Nullspace.product_defined]),
    which it checks by an assertion; on such operands [mulMV] is the product.
    On other operands [mulMV] is the sum over the columns that have a
    coefficient, and no statement below takes it for the value of a
    product. *)
Fixpoint mulMV (rows : nat) (M : Matrix) (v : Vector) : Vector :=
  match M, v with
  | c :: M', a :: v' => vadd (vscale a c) (mulMV rows M' v')
  | _, _ => vzero rows
  end.

(** [M.rowwise().reverse()]: every row reversed, so the columns appear in the
    opposite order. *)
Definition rowwise_reverse (M : Matrix) : Matrix := reverse M.

(** ** Unsigned counters *)

Definition UINT_MAX : Z := (2 ^ 32 - 1)%Z.

(** [i++] on an [unsigned int]. *)
Definition uint_incr (i : Z) : Z := ((i + 1) mod 2 ^ 32)%Z.

(** * Constraint *)

Module Constraint.

(** The class: its dimensions, its two projection settings and its virtual
    members.  [function] is pure virtual; [jacobian] is virtual with the
    numeric default [Constraint.jacobian] below. *)
Record t := Build {
  n_ : nat;
  k_ : nat;
  projectionTolerance_ : R;
  projectionMaxIterations_ : Z;
  function : Vector -> Vector;
  jacobian_v : Vector -> Matrix -> Matrix
}.

(** [projectionMaxIterations_] holds an [unsigned int]. *)
Definition budget_in_range (c : t) : Prop :=
  (0 <= projectionMaxIterations_ c <= UINT_MAX)%Z.

Section Jacobian.

Variable n_ : nat.
Variable function : Vector -> Vector.

(** Line 76: the step of column [j], from the coordinate [xj = x[j]]. *)
Definition step (xj : R) : R :=
  sqrt epsilon * (if decide (xj >= 1) then xj else 1).

(** Lines 79-83, 84-88 and 89-93: move [y1[j]] up and [y2[j]] down by [h],
    evaluate, and divide the difference by the distance of the two
    abscissae. *)
Definition advance (j : nat) (h : R) (y : Vector * Vector)
  : Vector * Vector * Vector :=
  let y1 := <[j := y.1 !!! j + h]> y.1 in
  let y2 := <[j := y.2 !!! j - h]> y.2 in
  let t1 := function y1 in
  let t2 := function y2 in
  (y1, y2, vdiv (vsub t1 t2) (y1 !!! j - y2 !!! j)).

(** The body of the loop over the columns (lines 74-99). *)
Definition jacobian_body (x : Vector) (j : nat)
  (st : Vector * Vector * Matrix) : Vector * Vector * Matrix :=
  let '(y1, y2, out) := st in
  let h := step (x !!! j) in
  let '(y1, y2, m1) := advance j h (y1, y2) in
  let '(y1, y2, m2) := advance j h (y1, y2) in
  let '(y1, y2, m3) := advance j h (y1, y2) in
  let out := <[j := vadd (vsub (vscale 1.5 m1) (vscale 0.6 m2)) (vscale 0.1 m3)]> out in
  (<[j := x !!! j]> y1, <[j := x !!! j]> y2, out).

(** [for (j = 0; j < n_; j++)], from the state [y1 = y2 = x]. *)
Definition jacobian_loop (x : Vector) (out : Matrix) : Vector * Vector * Matrix :=
  foldl (fun st j => jacobian_body x j st) (x, x, out) (seq 0 n_).

(** [Constraint::jacobian(x, out)]: [out] is the caller's matrix, updated
    column by column. *)
Definition jacobian (x : Vector) (out : Matrix) : Matrix :=
  (jacobian_loop x out).2.

End Jacobian.

Section Project.

Variable c : t.

(** [j.colPivHouseholderQr().solve(f)], Eigen's rank-revealing least-squares
    solver. *)
Variable qr_solve : Matrix -> Vector -> Vector.

(** The [while] loop of [project] (lines 110-116) from the state
    [(iter, x, f, j)]; the result is the final [(iter, x)].  The test
    [iter++ < projectionMaxIterations_] is only evaluated when the norm test
    holds, compares the value before the increment, and increments in both
    outcomes.  [None] is an exhausted [fuel]. *)
Fixpoint project_loop (fuel : nat) (iter : Z) (x f : Vector) (j : Matrix)
  : option (Z * Vector) :=
  match fuel with
  | O => None
  | S fuel' =>
      if decide (norm f > projectionTolerance_ c) then
        if decide (iter < projectionMaxIterations_ c)%Z then
          let j := jacobian_v c x j in
          let x := vsub x (qr_solve j f) in
          project_loop fuel' (uint_incr iter) x (function c x) j
        else Some (uint_incr iter, x)
      else Some (iter, x)
  end.

(** [Constraint::project(x)]: the flag returned and the final contents of the
    vector [x], which is updated in place.  [j0] is the matrix [j] as
    allocated on line 107.  The loop body runs at most
    [projectionMaxIterations_] times, so the fuel given is never exhausted
    ([project_returns]). *)
Definition project (j0 : Matrix) (x : Vector) : option (bool * Vector) :=
  r ← project_loop (S (Z.to_nat (projectionMaxIterations_ c))) 0 x (function c x) j0;
  Some (bool_decide (r.1 <= projectionMaxIterations_ c)%Z, r.2).

(** [Constraint::distance(x)]. *)
Definition distance (x : Vector) : R := norm (function c x).

(** [x.allFinite()]: a real number is never NaN or infinite, so the test
    holds of every vector here; a statement on [isSatisfied] speaks of points
    with finite coordinates. *)
Definition allFinite (x : Vector) : bool := forallb (fun _ : R => true) x.

(** [Constraint::isSatisfied(x)]. *)
Definition isSatisfied (x : Vector) : bool :=
  allFinite x && bool_decide (distance x <= projectionTolerance_ c).

(** One Newton update of [project]: lines 113-114. *)
Definition newton (xj : Vector * Matrix) : Vector * Matrix :=
  let j := jacobian_v c xj.1 xj.2 in
  (vsub xj.1 (qr_solve j (function c xj.1)), j).

(** The vector after [i] Newton updates from [x], with [j0] the initial
    contents of the matrix [j]. *)
Definition newton_run (i : nat) (x : Vector) (j0 : Matrix) : Vector :=
  (Nat.iter i newton (x, j0)).1.

End Project.

End Constraint.

(** * NullspaceStateSpace *)

Module NullspaceStateSpace.

(** ** checkSpace *)

(** A state space object as [dynamic_cast] sees it: the name of its class
    followed by the names of the classes it derives from. *)
Record StateSpace := { classes : list string }.

(** [si->getStateSpace().get()]: the pointer held by the space information,
    possibly null. *)
Record SpaceInformation := { getStateSpace : option StateSpace }.

Definition class_name : string := "ompl::base::NullspaceStateSpace".

(** [ompl::Exception], with its message. *)
Inductive Exception := exception (what : string).

(** [dynamic_cast<C *>(p)]: null for a null pointer and for an object that
    is not of class [C] or of a class derived from it. *)
Definition dynamic_cast (C : string) (p : option StateSpace) : option StateSpace :=
  match p with
  | Some s => if bool_decide (C ∈ classes s) then Some s else None
  | None => None
  end.

(** [NullspaceStateSpace::checkSpace(si)]: [inl] is the exception thrown,
    [inr tt] the normal return. *)
Definition checkSpace (si : SpaceInformation) : Exception + unit :=
  match dynamic_cast class_name (getStateSpace si) with
  | None => inl (exception
      "ompl::base::NullspaceStateSpace(): si needs to use an NullspaceStateSpace!")
  | Some _ => inr tt
  end.

(** The space bound to [si] is a [NullspaceStateSpace]. *)
Definition compatible (si : SpaceInformation) : Prop :=
  exists s, getStateSpace si = Some s /\ class_name ∈ classes s.

(** ** traverseManifold *)

(** A state of the space, through its [vectorView]. *)
Abbreviation State := (list R).

(** The states that [traverseManifold] clones into the output list. *)
Inductive Source := FromArg | Scratch | ToArg.

(** A state allocated by [cloneState]: its coordinates and the state it was
    copied from. *)
Record Clone := { source : Source; view : State }.

Definition cloneState (src : Source) (s : State) : Clone :=
  {| source := src; view := s |}.

(** [stateList], a pointer to the caller's vector or [nullptr]. *)
Definition StateList := option (list Clone).

Definition clear (l : StateList) : StateList := (fun _ => []) <$> l.
Definition push_back (l : StateList) (s : Clone) : StateList := (fun v => v ++ [s]) <$> l.

Section Traverse.

(** Members of the space. *)
Variable constraint_ : Constraint.t.
Variable n_ : nat.
Variable delta_ : R.

(** Collaborators: [validSegmentCount], [distance] and
    [RealVectorStateSpace::interpolate] of the ambient space, and the state
    validity checker of [si_]. *)
Variable validSegmentCount : State -> State -> Z.
Variable distance : State -> State -> R.
Variable interpolate_rv : State -> State -> R -> State.
Variable isValid : State -> bool.

(** [j.fullPivLu()]: its [solve] and its [kernel], whose columns span the
    null space of [j]. *)
Variable lu_solve : Matrix -> Vector -> Vector.
Variable lu_kernel : Matrix -> Matrix.

Variable to : State.
Variable interpolate : bool.

(** The variables that the loop updates. *)
Record Walk := {
  previous : State;
  dist : R;
  j : Matrix;
  stateList : StateList
}.

(** The second summand of line 107, from the point [scratch] interpolated on
    line 99.  The product is defined only when the kernel matrix has [n_]
    columns; what is proved of the walk does not depend on its value. *)
Definition tangential (j : Matrix) (pV scratch : Vector) : Vector :=
  mulMV n_ (rowwise_reverse (lu_kernel j)) (vsub scratch pV).

(** Lines 98-107: the new contents of [scratch] and of [j]. *)
Definition corrected (w : Walk) : State * Matrix :=
  let t := delta_ / dist w in
  let scratch := interpolate_rv (previous w) to t in
  let pV := previous w in
  let f := Constraint.function constraint_ pV in
  let j := Constraint.jacobian_v constraint_ pV (j w) in
  (vadd (vsub pV (lu_solve j f)) (tangential j pV scratch), j).

(** How one run of the loop body ends. *)
Inductive Flow := Next (w : Walk) | Break (w : Walk).

(** The loop body, lines 97-129. *)
Definition body (w : Walk) : Flow :=
  let '(scratch, j) := corrected w in
  let valid := interpolate || isValid scratch in
  let deviated := bool_decide (distance (previous w) scratch > 2 * delta_) in
  if negb valid || deviated then
    Break {| previous := previous w; dist := dist w; j := j; stateList := stateList w |}
  else
    let stateList := push_back (stateList w) (cloneState Scratch scratch) in
    let newDist := distance scratch to in
    if decide (newDist >= dist w) then
      Break {| previous := previous w; dist := dist w; j := j; stateList := stateList |}
    else
      Next {| previous := scratch; dist := newDist; j := j; stateList := stateList |}.

(** The loop of line 95: the value of [there] and the variables when it is
    left.  [None] is an exhausted [fuel]; over the reals nothing bounds the
    number of steps. *)
Fixpoint while (fuel : nat) (w : Walk) : option (bool * Walk) :=
  match fuel with
  | O => None
  | S fuel' =>
      if decide (dist w < delta_ + epsilon) then Some (true, w)
      else match body w with
           | Break w' => Some (false, w')
           | Next w' => while fuel' w'
           end
  end.

(** Lines 84-92: the variables when the loop is first reached.  [j0] is the
    matrix [j] as allocated on line 90. *)
Definition start (j0 : Matrix) (from : State) (collector : StateList) : Walk :=
  {| previous := from; dist := distance from to; j := j0; stateList := collector |}.

(** [reaches w w']: from the variables [w] at the head of the loop, whole
    runs of the body lead to the variables [w'] at the head of the loop. *)
Inductive reaches : Walk -> Walk -> Prop :=
  | reaches_here (w : Walk) : reaches w w
  | reaches_next (w w1 w2 : Walk) :
      ~ dist w < delta_ + epsilon -> body w = Next w1 -> reaches w1 w2 -> reaches w w2.

(** [traverseManifold(from, to, interpolate, stateList)]: the flag returned
    and the final contents of [stateList]. *)
Definition traverseManifold (fuel : nat) (j0 : Matrix) (from : State)
  (collector : StateList) : option (bool * StateList) :=
  let n := validSegmentCount from to in
  let collector := push_back (clear collector) (cloneState FromArg from) in
  if decide (n = 0)%Z then Some (true, collector)
  else if negb (Constraint.isSatisfied constraint_ from) then Some (false, collector)
  else
    '(there, w) ← while fuel (start j0 from collector);
    Some (there, if there : bool then push_back (stateList w) (cloneState ToArg to)
                 else stateList w).

End Traverse.

End NullspaceStateSpace.

(** * The stencil of the specification *)

Module Stencil.

Section Stencil.

Variable function : Vector -> Vector.

(** The central-difference estimate of the derivative of [function] along
    coordinate [j] at scale [s]: the values at [x + s e_j] and [x - s e_j],
    divided by the width [2 s]. *)
Definition central (x : Vector) (j : nat) (s : R) : Vector :=
  vdiv (vsub (function (<[j := x !!! j + s]> x)) (function (<[j := x !!! j - s]> x)))
       (2 * s).

(** [1.5 m1 - 0.6 m2 + 0.1 m3] with the estimates at scales [h], [2h], [3h]. *)
Definition combine (x : Vector) (j : nat) (h : R) : Vector :=
  vadd (vsub (vscale 1.5 (central x j h)) (vscale 0.6 (central x j (2 * h))))
       (vscale 0.1 (central x j (3 * h))).

(** The step size of the specification: [sqrt(eps) * max(|x_j|, 1)]. *)
Definition spec_step (xj : R) : R := sqrt epsilon * Rmax (Rabs xj) 1.

End Stencil.

End Stencil.

(** * Null space and projection *)

Module Nullspace.

(** [J * v = 0] for a matrix [J] of [m] rows. *)
Definition in_kernel (m : nat) (J : Matrix) (v : Vector) : Prop :=
  mulMV m J v = vzero m.

(** The columns of [K] are a basis of the null space of the [m] by [n] matrix
    [J]: they are vectors of the null space, independent, and every vector of
    the null space is a combination of them. *)
Definition kernel_basis (m n : nat) (J K : Matrix) : Prop :=
  Forall (fun col => length col = n /\ in_kernel m J col) K /\
  (forall cs : Vector, length cs = length K -> mulMV n K cs = vzero n ->
     cs = vzero (length K)) /\
  (forall v : Vector, length v = n -> in_kernel m J v ->
     exists cs : Vector, length cs = length K /\ v = mulMV n K cs).

(** Eigen's requirement on the operands of [M * v]: [lhs.cols() == rhs.rows()]. *)
Definition product_defined (M : Matrix) (v : Vector) : Prop :=
  length M = length v.

(** [p] is the orthogonal projection of [v] onto the null space of [J]: it
    lies in the null space and [v - p] is orthogonal to the null space. *)
Definition is_projection (m n : nat) (J : Matrix) (v p : Vector) : Prop :=
  length p = n /\ in_kernel m J p /\
  forall w : Vector, length w = n -> in_kernel m J w -> dot (vsub v p) w = 0.

End Nullspace.

(** * Shapes of paths and of residuals *)

Module Shape.

(** Every element of the list is related to the next one. *)
Fixpoint linked {A : Type} (rel : A -> A -> Prop) (l : list A) : Prop :=
  match l with
  | a :: tl => match tl with
               | b :: _ => rel a b /\ linked rel tl
               | [] => True
               end
  | [] => True
  end.

(** A polynomial of degree at most six, by its coefficients, and its
    derivative. *)
Definition sextic (a : R * R * R * R * R * R * R) (t : R) : R :=
  let '(a0, a1, a2, a3, a4, a5, a6) := a in
  a0 + a1 * t + a2 * t ^ 2 + a3 * t ^ 3 + a4 * t ^ 4 + a5 * t ^ 5 + a6 * t ^ 6.

Definition sextic_derivative (a : R * R * R * R * R * R * R) (t : R) : R :=
  let '(a0, a1, a2, a3, a4, a5, a6) := a in
  a1 + 2 * a2 * t + 3 * a3 * t ^ 2 + 4 * a4 * t ^ 3 + 5 * a5 * t ^ 4 + 6 * a6 * t ^ 5.

(** A pair of consecutive entries of the output list: an entry copied from
    [scratch] is within [2 delta] of the entry before it, and the copy of the
    target is closer than [delta + epsilon] to the entry before it. *)
Definition hop (distance : Vector -> Vector -> R) (delta_ : R)
    (a b : NullspaceStateSpace.Clone) : Prop :=
  match NullspaceStateSpace.source b with
  | NullspaceStateSpace.ToArg =>
      distance (NullspaceStateSpace.view a) (NullspaceStateSpace.view b) < delta_ + epsilon
  | _ =>
      distance (NullspaceStateSpace.view a) (NullspaceStateSpace.view b) <= 2 * delta_
  end.

(** A point accepted after [a]: within [2 delta] of it, closer to the target,
    and valid unless the walk only interpolates. *)
Definition progress (distance : Vector -> Vector -> R) (delta_ : R)
    (isValid : Vector -> bool) (interpolate : bool) (to a b : Vector) : Prop :=
  distance a b <= 2 * delta_ /\ distance b to < distance a to /\
  (interpolate = true \/ isValid b = true).

(** The output list of a walk from [from] through the points [pts]. *)
Definition recorded (from : Vector) (pts : list Vector) : list NullspaceStateSpace.Clone :=
  NullspaceStateSpace.cloneState NullspaceStateSpace.FromArg from
  :: (NullspaceStateSpace.cloneState NullspaceStateSpace.Scratch <$> pts).

End Shape.

(** * Instances *)

Module Instances.

Import Constraint.

(** A constraint that no point satisfies: the residual is the constant [1],
    the tolerance is [1/2], and the iteration budget is the largest
    [unsigned int]. *)
Definition unreachable : Constraint.t :=
  {| n_ := 1; k_ := 0;
     projectionTolerance_ := 1 / 2;
     projectionMaxIterations_ := UINT_MAX;
     function := fun _ => [1];
     jacobian_v := jacobian 1 (fun _ => [1]) |}.

(** The residual [x^2 + 1] on the line, which has no real zero, with the
    numeric Jacobian of the base class and a budget of one iteration. *)
Definition parabola_function (x : Vector) : Vector := [x !!! 0%nat * x !!! 0%nat + 1].

Definition parabola : Constraint.t :=
  {| n_ := 1; k_ := 0;
     projectionTolerance_ := 1 / 2;
     projectionMaxIterations_ := 1;
     function := parabola_function;
     jacobian_v := jacobian 1 parabola_function |}.

(** A solver for systems of one equation in one unknown. *)
Definition solve1 (j : Matrix) (f : Vector) : Vector :=
  match j, f with
  | [[a]], [b] => [b / a]
  | _, _ => f
  end.

(** The line [x_0 = 0] in the plane. *)
Definition axis_function (x : Vector) : Vector := [x !!! 0%nat].

Definition axis : Constraint.t :=
  {| n_ := 2; k_ := 1;
     projectionTolerance_ := 1 / 10000;
     projectionMaxIterations_ := 50;
     function := axis_function;
     jacobian_v := jacobian 2 axis_function |}.

(** A residual that vanishes everywhere on the plane; its Jacobian is the
    zero matrix. *)
Definition flat_function (x : Vector) : Vector := [0].

Definition flat : Constraint.t :=
  {| n_ := 2; k_ := 1;
     projectionTolerance_ := 1 / 10000;
     projectionMaxIterations_ := 50;
     function := flat_function;
     jacobian_v := jacobian 2 flat_function |}.

(** The Euclidean distance and the linear interpolation of a real vector
    space. *)
Definition euclid (a b : Vector) : R := norm (vsub a b).
Definition lerp (a b : Vector) (t : R) : Vector :=
  zip_with (fun u v => u + (v - u) * t) a b.

(** For the zero matrix of one row and two columns: the null space is the
    plane, with the canonical basis, and [0] solves [J d = 0]. *)
Definition kernel_canonical (j : Matrix) : Matrix := [[1; 0]; [0; 1]].
Definition solve_zero (j : Matrix) (f : Vector) : Vector := [0; 0].

(** The line [x_1 = 0] in the plane; the null space of its Jacobian is
    spanned by the first unit vector. *)
Definition ground_function (x : Vector) : Vector := [x !!! 1%nat].

Definition ground : Constraint.t :=
  {| n_ := 2; k_ := 1;
     projectionTolerance_ := 1 / 10000;
     projectionMaxIterations_ := 50;
     function := ground_function;
     jacobian_v := jacobian 2 ground_function |}.

Definition kernel_ground (j : Matrix) : Matrix := [[1; 0]].

(** For the Jacobian [(1 0)] of the line [x_0 = 0]: the null space is spanned
    by the second unit vector. *)
Definition kernel_axis (j : Matrix) : Matrix := [[0; 1]].

(** A segment count for points at distance one, with a longest valid segment
    of one. *)
Definition one_segment (a b : Vector) : Z := 1.

(** A segment count for points that need no intermediate state. *)
Definition no_segment (a b : Vector) : Z := 0.

(** [traverseManifold] on the plane with steps of [1/2], towards [to]. *)
Definition traverse_plane (c : Constraint.t) (kernel : Matrix -> Matrix) :=
  NullspaceStateSpace.traverseManifold c 2 (1 / 2) one_segment euclid lerp
    (fun _ => true) solve_zero kernel.

(** The variables of the walk from the origin to [(1, 0)] along the line
    [x_1 = 0]: at the start, and after the first step. *)
Definition ground_start (l : list NullspaceStateSpace.Clone) : NullspaceStateSpace.Walk :=
  NullspaceStateSpace.start euclid [1; 0] [[0]; [0]] [0; 0]
    (NullspaceStateSpace.push_back (NullspaceStateSpace.clear (Some l))
       (NullspaceStateSpace.cloneState NullspaceStateSpace.FromArg [0; 0])).

Definition ground_half : NullspaceStateSpace.Walk :=
  {| NullspaceStateSpace.previous := [1 / 2; 0];
     NullspaceStateSpace.dist := euclid [1 / 2; 0] [1; 0];
     NullspaceStateSpace.j := [[0]; [1]];
     NullspaceStateSpace.stateList :=
       Some [NullspaceStateSpace.cloneState NullspaceStateSpace.FromArg [0; 0];
             NullspaceStateSpace.cloneState NullspaceStateSpace.Scratch [1 / 2; 0]] |}.

(** A residual that is [1] everywhere, with a budget of three iterations. *)
Definition stuck : Constraint.t :=
  {| n_ := 1; k_ := 0;
     projectionTolerance_ := 1 / 2;
     projectionMaxIterations_ := 3;
     function := fun _ => [1];
     jacobian_v := jacobian 1 (fun _ => [1]) |}.

(** The line [x_0 = 0] with no iteration allowed. *)
Definition no_budget : Constraint.t :=
  {| n_ := 2; k_ := 1;
     projectionTolerance_ := 1 / 10000;
     projectionMaxIterations_ := 0;
     function := axis_function;
     jacobian_v := jacobian 2 axis_function |}.

End Instances.

(** * Properties of [Constraint] *)

Module ConstraintFacts.

Import Constraint Stencil.

Lemma epsilon_pos : 0 < epsilon.
Proof. unfold epsilon. apply Rinv_0_lt_compat, pow_lt. lra. Qed.

Lemma sqrt_epsilon_pos : 0 < sqrt epsilon.
Proof. apply sqrt_lt_R0, epsilon_pos. Qed.

Lemma step_pos xj : 0 < step xj.
Proof.
  unfold step. pose proof sqrt_epsilon_pos.
  destruct (decide (xj >= 1)); nra.
Qed.

(** Where the coordinate is at least [-1], the step of the code is the step
    of the specification. *)
Lemma step_spec xj : -1 <= xj -> step xj = spec_step xj.
Proof.
  intros Hx. unfold step, spec_step. f_equal.
  destruct (decide (xj >= 1)) as [H|H].
  - rewrite Rabs_right by lra. rewrite Rmax_left; lra.
  - rewrite Rmax_right; [done|]. unfold Rabs. destruct (Rcase_abs xj); lra.
Qed.

Section Jacobian.

Variable n_ : nat.
Variable function : Vector -> Vector.

Lemma advance_from (x : Vector) (j : nat) (a b h : R) :
  (j < length x)%nat ->
  advance function j h (<[j := a]> x, <[j := b]> x)
  = (<[j := a + h]> x, <[j := b - h]> x,
     vdiv (vsub (function (<[j := a + h]> x)) (function (<[j := b - h]> x)))
          (a + h - (b - h))).
Proof.
  intros Hj. unfold advance. cbn [fst snd].
  rewrite !list_lookup_total_insert_eq by (rewrite ?length_insert; done).
  by rewrite !list_insert_insert_eq.
Qed.

Lemma jacobian_body_column (x : Vector) (out : Matrix) (j : nat) :
  (j < length x)%nat ->
  jacobian_body function x j (x, x, out)
  = (x, x, <[j := combine function x j (step (x !!! j))]> out).
Proof.
  intros Hj. unfold jacobian_body.
  assert (Hx : <[j := x !!! j]> x = x)
    by (apply list_insert_id, list_lookup_lookup_total_lt, Hj).
  set (h := step (x !!! j)). set (xj := x !!! j) in *.
  pose proof (advance_from x j xj xj h Hj) as H1. rewrite Hx in H1.
  rewrite H1, !advance_from by done.
  rewrite !list_insert_insert_eq, Hx.
  unfold combine, central.
  replace (xj + h + h) with (xj + 2 * h) by ring.
  replace (xj - h - h) with (xj - 2 * h) by ring.
  replace (xj + 2 * h + h) with (xj + 3 * h) by ring.
  replace (xj - 2 * h - h) with (xj - 3 * h) by ring.
  replace (xj + h - (xj - h)) with (2 * h) by ring.
  replace (xj + 2 * h - (xj - 2 * h)) with (2 * (2 * h)) by ring.
  replace (xj + 3 * h - (xj - 3 * h)) with (2 * (3 * h)) by ring.
  done.
Qed.

Lemma jacobian_loop_columns (x : Vector) (cols : list nat) (out : Matrix) :
  Forall (fun j => (j < length x)%nat) cols ->
  foldl (fun st j => jacobian_body function x j st) (x, x, out) cols
  = (x, x, foldl (fun o j => <[j := combine function x j (step (x !!! j))]> o) out cols).
Proof.
  intros Hcols. revert out.
  induction Hcols as [|j cols Hj _ IH]; intros out; [done|].
  cbn [foldl]. rewrite jacobian_body_column by done. apply IH.
Qed.

Lemma foldl_insert_lookup (g : nat -> Vector) (a n j : nat) (out : Matrix) :
  (a <= j < a + n)%nat -> (j < length out)%nat ->
  foldl (fun o i => <[i := g i]> o) out (seq a n) !! j = Some (g j).
Proof.
  revert a out. induction n as [|n IH]; intros a out Hj Hlen; [lia|].
  cbn [seq foldl]. destruct (decide (a = j)) as [->|Hne].
  - clear IH Hj.
    assert (Hkeep : forall m b (o : Matrix), (j < b)%nat ->
      foldl (fun o i => <[i := g i]> o) o (seq b m) !! j = o !! j).
    { induction m as [|m IHm]; intros b o Hb; [done|].
      cbn [seq foldl]. rewrite IHm by lia. apply list_lookup_insert_ne. lia. }
    rewrite Hkeep by lia. by apply list_lookup_insert_eq.
  - apply IH; [lia|]. by rewrite length_insert.
Qed.

End Jacobian.

Section Project.

Variable c : t.
Variable qr_solve : Matrix -> Vector -> Vector.

Local Abbreviation max := (projectionMaxIterations_ c).
Local Abbreviation tol := (projectionTolerance_ c).
Local Abbreviation run := (newton_run c qr_solve).

Lemma uint_incr_small (i : Z) : (0 <= i < UINT_MAX)%Z -> uint_incr i = (i + 1)%Z.
Proof.
  unfold UINT_MAX, uint_incr. change (2 ^ 32)%Z with 4294967296%Z.
  intros Hi. apply Z.mod_small. lia.
Qed.

Lemma uint_incr_max : uint_incr UINT_MAX = 0%Z.
Proof. reflexivity. Qed.

Lemma project_loop_step (fuel : nat) (iter : Z) (x : Vector) (j : Matrix) :
  distance c x > tol -> (iter < max)%Z ->
  project_loop c qr_solve (S fuel) iter x (function c x) j
  = project_loop c qr_solve fuel (uint_incr iter)
      (newton c qr_solve (x, j)).1 (function c (newton c qr_solve (x, j)).1)
      (newton c qr_solve (x, j)).2.
Proof.
  intros Hd Hi. cbn [project_loop]. unfold distance in Hd.
  destruct (decide (norm (function c x) > tol)); [|done].
  destruct (decide (iter < max)%Z); done.
Qed.

Lemma project_loop_met (fuel : nat) (iter : Z) (x : Vector) (j : Matrix) :
  distance c x <= tol ->
  project_loop c qr_solve (S fuel) iter x (function c x) j = Some (iter, x).
Proof.
  intros Hd. cbn [project_loop]. unfold distance in Hd.
  destruct (decide (norm (function c x) > tol)); [lra|done].
Qed.

Lemma project_loop_spent (fuel : nat) (iter : Z) (x : Vector) (j : Matrix) :
  distance c x > tol -> (max <= iter)%Z ->
  project_loop c qr_solve (S fuel) iter x (function c x) j = Some (uint_incr iter, x).
Proof.
  intros Hd Hi. cbn [project_loop]. unfold distance in Hd.
  destruct (decide (norm (function c x) > tol)); [|done].
  destruct (decide (iter < max)%Z); [lia|done].
Qed.

Lemma run_shift (i : nat) (x : Vector) (j : Matrix) :
  Nat.iter i (newton c qr_solve) (newton c qr_solve (x, j))
  = Nat.iter (S i) (newton c qr_solve) (x, j).
Proof. symmetry. apply Nat.iter_succ_r. Qed.

Lemma newton_run_0 (x : Vector) (j : Matrix) : run 0 x j = x.
Proof. reflexivity. Qed.

(** The loop from counter [iter] with [k] iterations left in the budget:
    it stops at the first iterate that meets the tolerance, or after [k]
    updates. *)
Lemma project_loop_runs (k : nat) : forall (iter : Z) (x : Vector) (j : Matrix) (fuel : nat),
  (0 <= iter)%Z -> (iter + Z.of_nat k = max)%Z -> (max <= UINT_MAX)%Z -> (k < fuel)%nat ->
  exists i : nat, (i <= k)%nat /\
    (forall i', (i' < i)%nat -> distance c (run i' x j) > tol) /\
    ((distance c (run i x j) <= tol /\
      project_loop c qr_solve fuel iter x (function c x) j
      = Some ((iter + Z.of_nat i)%Z, run i x j))
     \/
     (i = k /\ distance c (run i x j) > tol /\
      project_loop c qr_solve fuel iter x (function c x) j
      = Some (uint_incr max, run i x j))).
Proof.
  induction k as [|k IH]; intros iter x j fuel H0 Hk Hmax Hfuel;
    (destruct fuel as [|fuel]; [lia|]).
  - exists 0%nat. split; [lia|]. split; [intros; lia|].
    rewrite newton_run_0.
    destruct (Rle_dec (distance c x) tol) as [Hd|Hd].
    + left. split; [done|]. rewrite project_loop_met by done.
      do 2 f_equal. lia.
    + right. split; [done|]. split; [lra|].
      rewrite project_loop_spent by (lra || lia). do 2 f_equal. f_equal. lia.
  - destruct (Rle_dec (distance c x) tol) as [Hd|Hd].
    + exists 0%nat. split; [lia|]. split; [intros; lia|].
      rewrite newton_run_0.
      left. split; [done|]. rewrite project_loop_met by done.
      do 2 f_equal. lia.
    + rewrite project_loop_step by (lra || lia).
      destruct (newton c qr_solve (x, j)) as [x' j'] eqn:Hn. cbn [fst snd].
      destruct (IH (uint_incr iter) x' j' fuel) as (i & Hi & Hbefore & Hend).
      * rewrite uint_incr_small by lia. lia.
      * rewrite uint_incr_small by lia. lia.
      * done.
      * lia.
      * assert (Hrun : forall m, run m x' j' = run (S m) x j)
          by (intros m; unfold newton_run; rewrite <- Hn, run_shift; done).
        exists (S i). split; [lia|]. split.
        { intros [|i'] Hi'; [rewrite newton_run_0; lra|].
          rewrite <- Hrun. apply Hbefore. lia. }
        rewrite <- !Hrun. destruct Hend as [[Hd' ->]|(-> & Hd' & ->)].
        -- left. split; [done|]. do 2 f_equal.
           rewrite uint_incr_small by lia. lia.
        -- right. done.
Qed.

(** With a budget in the range of [unsigned int], [project] returns. *)
Lemma project_returns (j0 : Matrix) (x : Vector) :
  (0 <= max <= UINT_MAX)%Z -> is_Some (project c qr_solve j0 x).
Proof.
  intros Hmax. unfold project.
  destruct (project_loop_runs (Z.to_nat max) 0 x j0 (S (Z.to_nat max)))
    as (i & _ & _ & [[_ ->]|(_ & _ & ->)]); try lia; by eexists.
Qed.

(** Below the largest [unsigned int], the flag is [true] exactly when some
    iterate within the budget meets the tolerance, and [x] is then the first
    such iterate; otherwise [x] has received all the updates of the budget. *)
Lemma project_flag (j0 : Matrix) (x : Vector) :
  (0 <= max < UINT_MAX)%Z ->
  (exists i : nat, (i <= Z.to_nat max)%nat /\
     (forall i', (i' < i)%nat -> distance c (run i' x j0) > tol) /\
     distance c (run i x j0) <= tol /\
     project c qr_solve j0 x = Some (true, run i x j0))
  \/
  ((forall i, (i <= Z.to_nat max)%nat -> distance c (run i x j0) > tol) /\
   project c qr_solve j0 x = Some (false, run (Z.to_nat max) x j0)).
Proof.
  intros Hmax. unfold project.
  destruct (project_loop_runs (Z.to_nat max) 0 x j0 (S (Z.to_nat max)))
    as (i & Hi & Hbefore & [[Hd ->]|(-> & Hd & ->)]); try lia.
  - left. exists i. repeat split; try done. cbn.
    rewrite bool_decide_eq_true_2 by lia. done.
  - right. split.
    + intros i Hi'. destruct (decide (i = Z.to_nat max)) as [->|]; [done|].
      apply Hbefore. lia.
    + cbn. rewrite uint_incr_small by lia.
      rewrite bool_decide_eq_false_2 by lia. done.
Qed.

(** A residual that stays above the tolerance uses the whole budget; the flag
    is the comparison of the counter after its last increment. *)
Lemma project_exhausted (j0 : Matrix) (x : Vector) :
  (0 <= max <= UINT_MAX)%Z ->
  (forall i, (i <= Z.to_nat max)%nat -> distance c (run i x j0) > tol) ->
  project c qr_solve j0 x
  = Some (bool_decide (uint_incr max <= max)%Z, run (Z.to_nat max) x j0).
Proof.
  intros Hmax Hnever. unfold project.
  destruct (project_loop_runs (Z.to_nat max) 0 x j0 (S (Z.to_nat max)))
    as (i & Hi & _ & [[Hd _]|(-> & _ & ->)]); try lia.
  - specialize (Hnever i Hi). lra.
  - done.
Qed.

End Project.

Import Instances.

Lemma norm_singleton (a : R) : 0 <= a -> norm [a] = a.
Proof.
  intros Ha. unfold norm, dot. cbn. rewrite Rplus_0_r. by apply sqrt_square.
Qed.

(** C7. Every column [j] of the numeric Jacobian written by
    [Constraint::jacobian] is [1.5 m1 - 0.6 m2 + 0.1 m3], where [m1], [m2],
    [m3] are the central differences of [function] along coordinate [j] at
    the scales [h], [2h], [3h], each from the two values of [function] at
    [x + s e_j] and [x - s e_j]; [h] is the step the code picks for the
    column. *)
Theorem jacobian_stencil (n_ : nat) (function : Vector -> Vector)
    (x : Vector) (out : Matrix) (j : nat) :
  length x = n_ -> length out = n_ -> (j < n_)%nat ->
  jacobian n_ function x out !! j = Some (combine function x j (step (x !!! j))).
Proof.
  intros Hx Hout Hj. unfold jacobian, jacobian_loop.
  rewrite jacobian_loop_columns.
  - cbn [snd]. apply (foldl_insert_lookup (fun i => combine function x i (step (x !!! i)))); lia.
  - apply Forall_forall. intros i Hi. apply elem_of_seq in Hi. lia.
Qed.

Lemma jacobian_stencil_witness :
  jacobian 1 parabola_function [1] [[0]] !! 0%nat
  = Some (combine parabola_function [1] 0 (step ([1] !!! 0%nat))).
Proof. apply (jacobian_stencil 1 parabola_function [1] [[0]] 0); [reflexivity|reflexivity|lia]. Defined.

(** C4. At the coordinate [-4] the step of line 76 is [sqrt(eps)], while
    [sqrt(eps) * max(|x_j|, 1)] is [4 sqrt(eps)]: the test [x[j] >= 1] does
    not scale the step by the magnitude of a negative coordinate. *)
Theorem step_negative_coordinate :
  step (-4) = sqrt epsilon /\ spec_step (-4) = 4 * sqrt epsilon /\
  step (-4) <> spec_step (-4).
Proof.
  assert (Hstep : step (-4) = sqrt epsilon).
  { unfold step. destruct (decide (-4 >= 1)); lra. }
  assert (Hspec : spec_step (-4) = 4 * sqrt epsilon).
  { unfold spec_step. rewrite Rabs_left by lra. rewrite Rmax_left by lra. lra. }
  pose proof sqrt_epsilon_pos. repeat split; [done|done|lra].
Qed.

(** C8. A point whose residual is within the tolerance is returned
    unchanged, with the flag [true]. *)
Theorem project_idempotent (c : t) (qr_solve : Matrix -> Vector -> Vector)
    (j0 : Matrix) (x : Vector) :
  budget_in_range c ->
  distance c x <= projectionTolerance_ c ->
  project c qr_solve j0 x = Some (true, x).
Proof.
  intros [Hmax _] Hd. unfold project.
  rewrite project_loop_met by done. cbn.
  by rewrite bool_decide_eq_true_2.
Qed.

Lemma project_idempotent_witness :
  project axis solve1 [[0]; [0]] [0; 7] = Some (true, [0; 7]).
Proof.
  apply project_idempotent.
  - unfold budget_in_range, UINT_MAX. cbn. lia.
  - unfold distance. cbn [function projectionTolerance_ axis].
    unfold axis_function. cbn. rewrite norm_singleton; lra.
Defined.

(** C3. With the budget [UINT_MAX] and a residual that never meets the
    tolerance, the counter wraps to [0] in the last test of the loop and
    [project] returns [true]. *)
Theorem project_budget_wraps (qr_solve : Matrix -> Vector -> Vector)
    (j0 : Matrix) (x : Vector) :
  exists x' : Vector,
    project unreachable qr_solve j0 x = Some (true, x') /\
    x' = newton_run unreachable qr_solve (Z.to_nat UINT_MAX) x j0 /\
    distance unreachable x' > projectionTolerance_ unreachable.
Proof.
  assert (Hnever : forall y, distance unreachable y > projectionTolerance_ unreachable).
  { intros y. unfold distance. cbn [function projectionTolerance_ unreachable].
    rewrite norm_singleton; lra. }
  eexists. split; [|split; [reflexivity|apply Hnever]].
  rewrite (project_exhausted unreachable qr_solve j0 x).
  - reflexivity.
  - cbn [projectionMaxIterations_ unreachable]. unfold UINT_MAX. lia.
  - intros i _. apply Hnever.
Qed.

Lemma parabola_central (a s : R) :
  s <> 0 -> central parabola_function [a] 0 s = [2 * a].
Proof.
  intros Hs. unfold central, parabola_function, vdiv, vsub. cbn.
  f_equal. field. done.
Qed.

Lemma parabola_jacobian (a c0 : R) :
  jacobian 1 parabola_function [a] [[c0]] = [[2 * a]].
Proof.
  unfold jacobian, jacobian_loop.
  rewrite jacobian_loop_columns by (repeat constructor).
  cbn [seq foldl snd]. cbn [insert list_insert].
  unfold combine. pose proof (step_pos ([a] !!! 0%nat)) as Hh.
  rewrite !parabola_central by lra.
  unfold vadd, vsub, vscale. cbn. do 2 f_equal. lra.
Qed.

(** C10. A failed projection leaves its updates in [x]: from the point [1]
    and with a budget of one iteration, [project] on the residual [x^2 + 1]
    returns [false] and [x] holds [0], the result of the one Newton update.
    The solver is any solver that is exact on a nonsingular system of one
    equation. *)
Theorem project_failure_mutates (qr_solve : Matrix -> Vector -> Vector) (c0 : R) :
  (forall a b : R, a <> 0 -> qr_solve [[a]] [b] = [b / a]) ->
  project parabola qr_solve [[c0]] [1] = Some (false, [0]) /\
  newton_run parabola qr_solve (Z.to_nat (projectionMaxIterations_ parabola)) [1] [[c0]] = [0] /\
  [0] <> [1].
Proof.
  intros Hsolve.
  assert (Hnewton : newton parabola qr_solve ([1], [[c0]]) = ([0], [[2 * 1]])).
  { unfold newton. cbn [fst snd jacobian_v function parabola].
    rewrite parabola_jacobian. unfold parabola_function at 1. cbn.
    rewrite Hsolve by lra. unfold vsub. cbn. do 2 f_equal. lra. }
  assert (Hrun : newton_run parabola qr_solve 1 [1] [[c0]] = [0]).
  { unfold newton_run. cbn [Nat.iter nat_rect]. by rewrite Hnewton. }
  split; [|split; [exact Hrun|intros [=]; lra]].
  rewrite project_exhausted.
  - cbn [projectionMaxIterations_ parabola]. change (Z.to_nat 1) with 1%nat.
    by rewrite Hrun.
  - cbn [projectionMaxIterations_ parabola]. unfold UINT_MAX. lia.
  - cbn [projectionMaxIterations_ parabola]. change (Z.to_nat 1) with 1%nat.
    intros i Hi. assert (i = 0 \/ i = 1)%nat as [-> | ->] by lia.
    + rewrite newton_run_0. unfold distance.
      cbn [function projectionTolerance_ parabola]. unfold parabola_function. cbn.
      rewrite norm_singleton; lra.
    + rewrite Hrun. unfold distance.
      cbn [function projectionTolerance_ parabola]. unfold parabola_function. cbn.
      rewrite norm_singleton; lra.
Qed.

Lemma project_failure_mutates_witness :
  project parabola solve1 [[0]] [1] = Some (false, [0]).
Proof. apply (project_failure_mutates solve1 0). intros a b _. reflexivity. Defined.

End ConstraintFacts.


(** * Properties of [NullspaceStateSpace] *)

Module NullspaceFacts.

Import NullspaceStateSpace Nullspace Instances.

(** C9. [checkSpace] throws exactly when the space bound to [si] is not a
    [NullspaceStateSpace]; for such a space it returns normally. *)
Theorem checkSpace_throws_iff (si : SpaceInformation) :
  ((exists e, checkSpace si = inl e) <-> ~ compatible si) /\
  (compatible si <-> checkSpace si = inr tt).
Proof.
  unfold checkSpace, compatible, dynamic_cast.
  destruct (getStateSpace si) as [s|].
  - destruct (bool_decide_reflect (class_name ∈ classes s)) as [Hin|Hout].
    + split; split.
      * intros [e [=]].
      * intros Hn. destruct Hn. by exists s.
      * done.
      * intros _. by exists s.
    + split; split.
      * intros _ (s' & [= <-] & Hin). done.
      * intros _. by eexists.
      * intros (s' & [= <-] & Hin). done.
      * intros [=].
  - split; split.
    + intros _ (s' & [=] & _).
    + intros _. by eexists.
    + intros (s' & [=] & _).
    + intros [=].
Qed.

Section Traverse.

Variable constraint_ : Constraint.t.
Variable n_ : nat.
Variable delta_ : R.
Variable validSegmentCount : State -> State -> Z.
Variable distance : State -> State -> R.
Variable interpolate_rv : State -> State -> R -> State.
Variable isValid : State -> bool.
Variable lu_solve : Matrix -> Vector -> Vector.
Variable lu_kernel : Matrix -> Matrix.
Variable to : State.
Variable interpolate : bool.

Local Abbreviation body :=
  (body constraint_ n_ delta_ distance interpolate_rv isValid lu_solve lu_kernel to interpolate).
Local Abbreviation corrected :=
  (corrected constraint_ n_ delta_ interpolate_rv lu_solve lu_kernel to).
Local Abbreviation while :=
  (while constraint_ n_ delta_ distance interpolate_rv isValid lu_solve lu_kernel to interpolate).
Local Abbreviation reaches :=
  (reaches constraint_ n_ delta_ distance interpolate_rv isValid lu_solve lu_kernel to interpolate).
Local Abbreviation start := (start distance to).
Local Abbreviation traverseManifold :=
  (traverseManifold constraint_ n_ delta_ validSegmentCount distance interpolate_rv
     isValid lu_solve lu_kernel to interpolate).

(** What a run of the body does to the variables. *)
Lemma body_next (w w' : Walk) :
  body w = Next w' ->
  previous w' = (corrected w).1 /\
  dist w' = distance (corrected w).1 to /\
  dist w' < dist w /\
  stateList w' = push_back (stateList w) (cloneState Scratch (corrected w).1).
Proof.
  unfold NullspaceStateSpace.body. destruct (corrected w) as [scratch j'].
  cbn [fst]. destruct (negb _ || _); [done|].
  destruct (decide (distance scratch to >= dist w)) as [Hge|Hlt]; [done|].
  intros [= <-]. cbn. repeat split. lra.
Qed.

Lemma body_break (w w' : Walk) :
  body w = Break w' ->
  previous w' = previous w /\ dist w' = dist w /\
  (stateList w' = stateList w \/
   stateList w' = push_back (stateList w) (cloneState Scratch (corrected w).1)).
Proof.
  unfold NullspaceStateSpace.body. destruct (corrected w) as [scratch j'].
  cbn [fst]. destruct (negb _ || _).
  - intros [= <-]. cbn. auto.
  - destruct (decide (distance scratch to >= dist w)) as [Hge|Hlt]; [|done].
    intros [= <-]. cbn. auto.
Qed.

Lemma body_diverged (w : Walk) :
  distance (corrected w).1 to >= dist w ->
  exists w', body w = Break w' /\ previous w' = previous w.
Proof.
  intros Hge. unfold NullspaceStateSpace.body. destruct (corrected w) as [scratch j'].
  cbn [fst] in Hge. destruct (negb _ || _); [by eexists|].
  destruct (decide (distance scratch to >= dist w)); [by eexists|done].
Qed.

Lemma while_more_fuel (fuel fuel' : nat) (w : Walk) (r : bool * Walk) :
  (fuel <= fuel')%nat -> while fuel w = Some r -> while fuel' w = Some r.
Proof.
  revert fuel' w. induction fuel as [|fuel IH]; intros fuel' w Hle; [done|].
  destruct fuel' as [|fuel']; [lia|]. cbn [NullspaceStateSpace.while].
  destruct (decide (dist w < delta_ + epsilon)); [done|].
  destruct (body w); [|done]. apply IH. lia.
Qed.

Lemma while_deterministic (fuel fuel' : nat) (w : Walk) (r r' : bool * Walk) :
  while fuel w = Some r -> while fuel' w = Some r' -> r = r'.
Proof.
  intros H H'.
  apply (while_more_fuel _ (Nat.max fuel fuel')) in H; [|lia].
  apply (while_more_fuel _ (Nat.max fuel fuel')) in H'; [|lia].
  congruence.
Qed.

(** A result of the loop from [w] is a result of the loop from any state
    that reaches [w]. *)
Lemma reaches_while (w0 w : Walk) (fuel : nat) (r : bool * Walk) :
  reaches w0 w -> while fuel w = Some r -> exists fuel0, while fuel0 w0 = Some r.
Proof.
  intros Hreach Hr. induction Hreach as [w|w w1 w2 Hin Hbody _ IH]; [by eexists|].
  destruct (IH Hr) as [fuel1 H1]. exists (S fuel1).
  cbn [NullspaceStateSpace.while].
  destruct (decide (dist w < delta_ + epsilon)); [done|]. by rewrite Hbody.
Qed.

Lemma reaches_dist (w0 w : Walk) :
  reaches w0 w -> dist w0 = distance (previous w0) to ->
  dist w = distance (previous w) to /\ dist w <= dist w0.
Proof.
  induction 1 as [w|w w1 w2 Hin Hbody _ IH]; intros Hinv; [split; [done|lra]|].
  destruct (body_next _ _ Hbody) as (Hp & Hd & Hlt & _).
  destruct IH as [IH1 IH2]; [congruence|]. split; [done|lra].
Qed.

(** The entries that the loop adds to the list are copies of [scratch]. *)
Lemma while_list (fuel : nat) : forall (w w' : Walk) (there : bool)
    (first : Clone) (rest : list Clone),
  stateList w = Some (first :: rest) ->
  Forall (fun cl => source cl = Scratch) rest ->
  while fuel w = Some (there, w') ->
  exists rest', stateList w' = Some (first :: rest') /\
    Forall (fun cl => source cl = Scratch) rest'.
Proof.
  induction fuel as [|fuel IH]; intros w w' there first rest Hl Hrest; [done|].
  cbn [NullspaceStateSpace.while].
  destruct (decide (dist w < delta_ + epsilon)); [intros [= _ <-]; eauto|].
  assert (Hpush : forall s, Forall (fun cl => source cl = Scratch)
                              (rest ++ [cloneState Scratch s])).
  { intros s. apply Forall_app. split; [done|]. by repeat constructor. }
  destruct (body w) as [w1|w1] eqn:Hbody.
  - destruct (body_next _ _ Hbody) as (_ & _ & _ & Hl1).
    rewrite Hl in Hl1. cbn in Hl1. by apply (IH _ _ _ _ _ Hl1).
  - intros [= _ <-].
    destruct (body_break _ _ Hbody) as (_ & _ & [Hl1|Hl1]); rewrite Hl in Hl1.
    + eauto.
    + cbn in Hl1. eauto.
Qed.

(** C2, as the code has it. When [from] fails [isSatisfied] and the segment
    count is not zero, [traverseManifold] returns [false] and a list that was
    supplied holds exactly one element, the copy of [from] stored on line 69;
    no further point is added. *)
Theorem traverse_invalid_start (fuel : nat) (j0 : Matrix) (from : State)
    (collector : StateList) :
  validSegmentCount from to <> 0%Z ->
  Constraint.isSatisfied constraint_ from = false ->
  traverseManifold fuel j0 from collector
  = Some (false, (fun _ => [cloneState FromArg from]) <$> collector).
Proof.
  intros Hn Hsat. unfold NullspaceStateSpace.traverseManifold.
  destruct (decide (validSegmentCount from to = 0)%Z); [done|].
  rewrite Hsat. cbn. by destruct collector.
Qed.

(** C6. A list that was supplied begins with the copy of [from]; its last
    element is a copy of [to] only if the flag returned is [true]; and when
    the flag is [true] and the segment count is not zero, the copy of [to]
    is the element appended last. *)
Theorem traverse_endpoints (fuel : nat) (j0 : Matrix) (from : State)
    (l : list Clone) (there : bool) (out : StateList) :
  traverseManifold fuel j0 from (Some l) = Some (there, out) ->
  exists path : list Clone, out = Some path /\
    head path = Some (cloneState FromArg from) /\
    (forall cl, last path = Some cl -> source cl = ToArg -> there = true) /\
    (there = true -> validSegmentCount from to <> 0%Z ->
       exists path', path = path' ++ [cloneState ToArg to]).
Proof.
  unfold NullspaceStateSpace.traverseManifold. cbn [clear push_back fmap option_fmap option_map app].
  destruct (decide (validSegmentCount from to = 0)%Z) as [Hn|Hn].
  { intros [= <- <-]. eexists. split; [done|]. split; [done|]. split; [|done].
    intros cl [= <-]. done. }
  destruct (negb _).
  { intros [= <- <-]. eexists. split; [done|]. split; [done|]. split; [|done].
    intros cl [= <-]. done. }
  destruct (while fuel _) as [[there' w]|] eqn:Hwhile; [|done].
  cbn. intros [= -> <-].
  destruct (while_list fuel (start j0 from (Some [cloneState FromArg from])) w there
              (cloneState FromArg from) [] eq_refl (Forall_nil_2 _) Hwhile)
    as (rest & Hl & Hrest).
  rewrite Hl. destruct there.
  - cbn. eexists. split; [done|]. split; [done|]. split; [done|]. intros _ _.
    by exists (cloneState FromArg from :: rest).
  - eexists. split; [done|]. split; [done|]. split; [|done].
    intros cl Hlast Hsrc. apply last_Some_elem_of in Hlast.
    apply elem_of_cons in Hlast as [->|Hin]; [done|].
    rewrite Forall_forall in Hrest. specialize (Hrest _ Hin). congruence.
Qed.


End Traverse.

(** ** The walk on the plane with a residual that vanishes everywhere *)

Lemma flat_jacobian (a b c0 c1 : R) :
  Constraint.jacobian 2 flat_function [a; b] [[c0]; [c1]] = [[0]; [0]].
Proof.
  unfold Constraint.jacobian, Constraint.jacobian_loop.
  rewrite ConstraintFacts.jacobian_loop_columns by (repeat constructor; cbn; lia).
  cbn [seq foldl snd]. cbn [insert list_insert].
  unfold Stencil.combine, Stencil.central, flat_function, vadd, vsub, vscale, vdiv.
  cbn. repeat f_equal; unfold Rdiv; ring.
Qed.

(** Where the Jacobian is the zero matrix on the plane, the null space is
    the plane and the canonical basis is a basis of it: the product of line
    107 is defined. The projection of the raw step [(1/10, 0)] onto the null
    space is the step itself, but the second summand of line 107 is
    [(0, 1/10)], which is not its projection: the corrected point is
    [(0, 1/10)]. *)
Lemma tangential_not_projection :
  let w := {| previous := [0; 0]; dist := 1; j := [[0]; [0]]; stateList := None |} in
  let J := Constraint.jacobian_v flat [0; 0] [[0]; [0]] in
  let trial := lerp [0; 0] [1; 0] (1 / 10 / 1) in
  let step := vsub trial [0; 0] in
  kernel_basis 1 2 J (kernel_canonical J) /\
  (corrected flat 2 (1 / 10) lerp solve_zero kernel_canonical [1; 0] w).1 = [0; 1 / 10] /\
  step = [1 / 10; 0] /\
  is_projection 1 2 J step step /\
  ~ is_projection 1 2 J step (tangential 2 kernel_canonical J [0; 0] trial).
Proof.
  intros w J trial step.
  assert (HJ : J = [[0]; [0]]) by apply flat_jacobian.
  assert (Hstep : step = [1 / 10; 0]).
  { unfold step, trial, lerp, vsub. cbn. repeat f_equal; lra. }
  assert (Hker : forall v : Vector, length v = 2%nat -> in_kernel 1 J v).
  { intros [|v1 [|v2 [|? ?]]] Hv; try done. rewrite HJ.
    unfold in_kernel, vadd, vscale, vzero. cbn. f_equal. lra. }
  assert (HT : tangential 2 kernel_canonical J [0; 0] trial = [0; 1 / 10]).
  { unfold tangential. fold step. rewrite Hstep.
    unfold kernel_canonical, rowwise_reverse, vadd, vscale, vzero. cbn.
    repeat f_equal; lra. }
  split; [|split; [|split; [done|split]]].
  - unfold kernel_basis, kernel_canonical. split; [|split].
    + repeat constructor; by apply Hker.
    + intros [|c1 [|c2 [|? ?]]] Hc; try done.
      unfold vadd, vscale, vzero. cbn. intros [= H1 H2].
      repeat f_equal; lra.
    + intros [|v1 [|v2 [|? ?]]] Hv _; try done. exists [v1; v2].
      split; [done|]. unfold vadd, vscale, vzero. cbn. repeat f_equal; lra.
  - unfold corrected. subst w. cbn [previous dist j fst Constraint.function flat].
    fold J. fold trial. rewrite HT.
    unfold solve_zero, vadd, vsub. cbn. repeat f_equal; lra.
  - split; [by rewrite Hstep|]. split; [apply Hker; by rewrite Hstep|].
    intros [|w1 [|w2 [|? ?]]] Hw _; try done. rewrite Hstep.
    unfold dot, vsub. cbn. lra.
  - rewrite HT, Hstep. intros (_ & _ & Horth).
    specialize (Horth [1; 0] eq_refl (Hker [1; 0] eq_refl)).
    unfold dot, vsub in Horth. cbn in Horth. lra.
Qed.

(** ** The first step of a walk along the line [x_0 = 0] *)

Lemma axis_jacobian (a b c0 c1 : R) :
  Constraint.jacobian 2 axis_function [a; b] [[c0]; [c1]] = [[1]; [0]].
Proof.
  unfold Constraint.jacobian, Constraint.jacobian_loop.
  rewrite ConstraintFacts.jacobian_loop_columns by (repeat constructor; cbn; lia).
  cbn [seq foldl snd]. cbn [insert list_insert].
  pose proof (ConstraintFacts.step_pos a) as Ha.
  assert (H0 : forall s, s <> 0 -> Stencil.central axis_function [a; b] 0 s = [1]).
  { intros s Hs. unfold Stencil.central, axis_function, vsub, vdiv. cbn.
    f_equal. field. done. }
  assert (H1 : forall s, Stencil.central axis_function [a; b] 1 s = [0]).
  { intros s. unfold Stencil.central, axis_function, vsub, vdiv. cbn.
    f_equal. unfold Rdiv. ring. }
  unfold Stencil.combine. cbn [lookup_total list_lookup_total] in *.
  rewrite !H0, !H1 by lra.
  unfold vadd, vsub, vscale. cbn. f_equal; [|f_equal]; f_equal; lra.
Qed.

(** C1. The residual [x_0] on the plane has the Jacobian [(1 0)], of full row
    rank; its null space is the line spanned by [(0, 1)], and [0] solves
    [J d = f] at the origin. For the walk from the origin towards [(0, 1)]
    the raw step is [(0, 1/2)], which lies in the null space and so is its own
    projection. The product of line 107 is not defined: the kernel matrix has
    one column and the step two coefficients. Summed over that one column
    the second summand is [(0, 0)], not the projection of the step, and the
    corrected point is the previous point: the tangential motion is lost. *)
Theorem tangential_on_line :
  let w := {| previous := [0; 0]; dist := 1; j := [[0]; [0]]; stateList := None |} in
  let J := Constraint.jacobian_v axis [0; 0] [[0]; [0]] in
  let f := Constraint.function axis [0; 0] in
  let trial := lerp [0; 0] [0; 1] (1 / 2 / 1) in
  let step := vsub trial [0; 0] in
  J = [[1]; [0]] /\
  kernel_basis 1 2 J (kernel_axis J) /\
  mulMV 1 J (solve_zero J f) = f /\
  step = [0; 1 / 2] /\
  is_projection 1 2 J step step /\
  ~ product_defined (rowwise_reverse (kernel_axis J)) step /\
  tangential 2 kernel_axis J [0; 0] trial = [0; 0] /\
  ~ is_projection 1 2 J step (tangential 2 kernel_axis J [0; 0] trial) /\
  (corrected axis 2 (1 / 2) lerp solve_zero kernel_axis [0; 1] w).1 = [0; 0].
Proof.
  intros w J f trial step.
  assert (HJ : J = [[1]; [0]]) by apply axis_jacobian.
  assert (Hstep : step = [0; 1 / 2]).
  { unfold step, trial, lerp, vsub. cbn. repeat f_equal; lra. }
  assert (Hker : forall v2 : R, in_kernel 1 J [0; v2]).
  { intros v2. rewrite HJ. unfold in_kernel, vadd, vscale, vzero. cbn. f_equal. lra. }
  assert (HT : tangential 2 kernel_axis J [0; 0] trial = [0; 0]).
  { unfold tangential. fold step. rewrite Hstep.
    unfold kernel_axis, rowwise_reverse, vadd, vscale, vzero. cbn.
    repeat f_equal; lra. }
  split; [done|]. split; [|split; [|split; [done|split; [|split; [|split; [done|split]]]]]].
  - unfold kernel_basis, kernel_axis. split; [|split].
    + repeat constructor. apply Hker.
    + intros [|c1 [|? ?]] Hc; try done.
      unfold vadd, vscale, vzero. cbn. intros [= H1 H2]. f_equal. lra.
    + intros [|v1 [|v2 [|? ?]]] Hv; try done. rewrite HJ.
      unfold in_kernel, vadd, vscale, vzero. cbn. intros [= H1].
      exists [v2]. split; [done|]. repeat f_equal; lra.
  - rewrite HJ. unfold f, solve_zero, vadd, vscale, vzero.
    cbn [Constraint.function axis]. unfold axis_function. cbn. f_equal. lra.
  - rewrite Hstep. split; [done|]. split; [apply Hker|].
    intros [|w1 [|w2 [|? ?]]] Hw _; try done. unfold dot, vsub. cbn. lra.
  - rewrite Hstep. unfold product_defined, kernel_axis, rowwise_reverse. cbn. lia.
  - rewrite HT, Hstep. intros (_ & _ & Horth).
    specialize (Horth [0; 1] eq_refl (Hker 1)).
    unfold dot, vsub in Horth. cbn in Horth. lra.
  - unfold corrected. subst w. cbn [previous dist j fst Constraint.function axis].
    fold J. fold trial. rewrite HT.
    unfold solve_zero, vadd, vsub. cbn. repeat f_equal; lra.
Qed.

(** ** A walk along the line [x_1 = 0] *)

Lemma epsilon_small : 0 < epsilon < 1 / 2.
Proof.
  split; [apply ConstraintFacts.epsilon_pos|].
  unfold epsilon. replace (1 / 2) with (/ 2) by lra.
  apply Rinv_lt_contravar; cbn; lra.
Qed.

Lemma euclid_ground (a b : R) : euclid [a; 0] [b; 0] = Rabs (a - b).
Proof.
  unfold euclid, norm, dot, vsub. cbn.
  replace ((a - b) * (a - b) + ((0 - 0) * (0 - 0) + 0)) with (Rsqr (a - b))
    by (unfold Rsqr; ring).
  apply sqrt_Rsqr_abs.
Qed.

Lemma ground_jacobian (a b c0 c1 : R) :
  Constraint.jacobian 2 ground_function [a; b] [[c0]; [c1]] = [[0]; [1]].
Proof.
  unfold Constraint.jacobian, Constraint.jacobian_loop.
  rewrite ConstraintFacts.jacobian_loop_columns by (repeat constructor; cbn; lia).
  cbn [seq foldl snd]. cbn [insert list_insert].
  pose proof (ConstraintFacts.step_pos b) as Hb.
  assert (H0 : forall s, Stencil.central ground_function [a; b] 0 s = [0]).
  { intros s. unfold Stencil.central, ground_function, vsub, vdiv. cbn.
    f_equal. unfold Rdiv. ring. }
  assert (H1 : forall s, s <> 0 -> Stencil.central ground_function [a; b] 1 s = [1]).
  { intros s Hs. unfold Stencil.central, ground_function, vsub, vdiv. cbn.
    f_equal. field. done. }
  unfold Stencil.combine. cbn [lookup_total list_lookup_total] in *.
  rewrite !H0, !H1 by lra.
  unfold vadd, vsub, vscale. cbn. f_equal; [|f_equal]; f_equal; lra.
Qed.

Lemma ground_satisfied (a : R) : Constraint.isSatisfied ground [a; 0] = true.
Proof.
  unfold Constraint.isSatisfied, Constraint.distance.
  cbn [Constraint.function Constraint.projectionTolerance_ ground].
  unfold ground_function. cbn.
  rewrite ConstraintFacts.norm_singleton by lra.
  apply bool_decide_eq_true_2. lra.
Qed.

Lemma axis_unsatisfied (b : R) : Constraint.isSatisfied axis [1; b] = false.
Proof.
  unfold Constraint.isSatisfied, Constraint.distance.
  cbn [Constraint.function Constraint.projectionTolerance_ axis].
  unfold axis_function. cbn.
  rewrite ConstraintFacts.norm_singleton by lra.
  apply bool_decide_eq_false_2. lra.
Qed.

(** The first run of the body moves from the origin to [(1/2, 0)]. *)
Lemma ground_first_step (interpolate : bool) (l : list Clone) :
  body ground 2 (1 / 2) euclid lerp (fun _ => true) solve_zero kernel_ground
    [1; 0] interpolate (ground_start l) = Next ground_half.
Proof.
  assert (Hc : corrected ground 2 (1 / 2) lerp solve_zero kernel_ground [1; 0]
                 (ground_start l) = ([1 / 2; 0], [[0]; [1]])).
  { unfold corrected, ground_start, start, tangential.
    cbn [previous dist j Constraint.jacobian_v Constraint.function ground].
    rewrite ground_jacobian, euclid_ground.
    rewrite Rabs_left by lra.
    unfold kernel_ground, rowwise_reverse, solve_zero, lerp, vadd, vsub, vscale, vzero.
    cbn. repeat f_equal; field. }
  unfold body. rewrite Hc. rewrite orb_true_r. cbn [negb orb].
  unfold ground_start, start. cbn [previous dist stateList].
  rewrite !euclid_ground.
  rewrite bool_decide_eq_false_2 by (rewrite Rabs_left; lra).
  destruct (decide _) as [Hge|_].
  - rewrite Rabs_left in Hge by lra. rewrite Rabs_left in Hge by lra. lra.
  - unfold ground_half. rewrite euclid_ground. done.
Qed.

Lemma ground_start_entered (l : list Clone) :
  ~ dist (ground_start l) < 1 / 2 + epsilon.
Proof.
  pose proof epsilon_small. unfold ground_start, start. cbn [dist].
  rewrite euclid_ground, Rabs_left; lra.
Qed.

(** The walk from the origin to [(1, 0)] in steps of [1/2]: one corrected
    point, then the target. *)
Lemma ground_walk (interpolate : bool) (l : list Clone) :
  traverse_plane ground kernel_ground [1; 0] interpolate 2 [[0]; [0]] [0; 0] (Some l)
  = Some (true, Some [cloneState FromArg [0; 0]; cloneState Scratch [1 / 2; 0];
                      cloneState ToArg [1; 0]]).
Proof.
  unfold traverse_plane, traverseManifold.
  destruct (decide (one_segment [0; 0] [1; 0] = 0%Z)) as [H|_]; [done|].
  rewrite ground_satisfied. cbn [negb].
  fold (ground_start l). cbn [while].
  destruct (decide (dist (ground_start l) < 1 / 2 + epsilon)) as [H|_];
    [by apply ground_start_entered in H|].
  rewrite ground_first_step.
  destruct (decide (dist ground_half < 1 / 2 + epsilon)) as [_|H]; [done|].
  exfalso. apply H. pose proof epsilon_small. unfold ground_half. cbn [dist].
  rewrite euclid_ground, Rabs_left; lra.
Qed.

Lemma traverse_endpoints_witness :
  exists path : list Clone,
    Some [cloneState FromArg [0; 0]; cloneState Scratch [1 / 2; 0];
          cloneState ToArg [1; 0]] = Some path /\
    head path = Some (cloneState FromArg [0; 0]) /\
    (forall cl, last path = Some cl -> source cl = ToArg -> true = true) /\
    (true = true -> one_segment [0; 0] [1; 0] <> 0%Z ->
       exists path', path = path' ++ [cloneState ToArg [1; 0]]).
Proof.
  apply (traverse_endpoints ground 2 (1 / 2) one_segment euclid lerp (fun _ => true)
           solve_zero kernel_ground [1; 0] true 2 [[0]; [0]] [0; 0] []).
  apply ground_walk.
Defined.

Lemma traverse_invalid_start_witness :
  traverse_plane axis kernel_canonical [1; 1] false 0 [[0]; [0]] [1; 0]
    (Some [cloneState ToArg [5; 5]])
  = Some (false, Some [cloneState FromArg [1; 0]]).
Proof.
  apply (traverse_invalid_start axis 2 (1 / 2) one_segment euclid lerp (fun _ => true)
           solve_zero kernel_canonical [1; 1] false 0 [[0]; [0]] [1; 0]
           (Some [cloneState ToArg [5; 5]])).
  - done.
  - apply axis_unsatisfied.
Defined.

(** C2. From the point [(1, 0)], which is at distance [1] from the line
    [x_0 = 0], with one segment to the target: the flag is [false], and the
    list supplied is not left empty, it holds the copy of [from]. *)
Lemma traverse_invalid_start_keeps_from :
  one_segment [1; 0] [1; 1] <> 0%Z /\
  Constraint.isSatisfied axis [1; 0] = false /\
  traverse_plane axis kernel_canonical [1; 1] false 0 [[0]; [0]] [1; 0] (Some [])
  = Some (false, Some [cloneState FromArg [1; 0]]) /\
  traverse_plane axis kernel_canonical [1; 1] false 0 [[0]; [0]] [1; 0] (Some [])
  <> Some (false, Some []).
Proof.
  assert (Hrun : traverse_plane axis kernel_canonical [1; 1] false 0 [[0]; [0]] [1; 0]
                   (Some [])
                 = Some (false, Some [cloneState FromArg [1; 0]])).
  { unfold traverse_plane, traverseManifold.
    destruct (decide (one_segment [1; 0] [1; 1] = 0%Z)) as [H|_]; [done|].
    by rewrite axis_unsatisfied. }
  split; [done|]. split; [apply axis_unsatisfied|]. split; [exact Hrun|].
  rewrite Hrun. intros [=].
Qed.



End NullspaceFacts.

(** * Further properties of [Constraint] *)

Module ConstraintMore.

Import Constraint Stencil Shape Instances.

(** ** The numeric Jacobian as a whole *)

Lemma length_foldl_insert (g : nat -> Vector) (cols : list nat) (out : Matrix) :
  length (foldl (fun o i => <[i := g i]> o) out cols) = length out.
Proof.
  revert out. induction cols as [|i cols IH]; intros out; [done|].
  cbn [foldl]. by rewrite IH, length_insert.
Qed.

(** With [n_] coordinates and [n_] columns, the matrix written is the list of
    the [n_] stencil columns. *)
Lemma jacobian_columns (n_ : nat) (function : Vector -> Vector)
    (x : Vector) (out : Matrix) :
  length x = n_ -> length out = n_ ->
  jacobian n_ function x out
  = (fun j => combine function x j (step (x !!! j))) <$> seq 0 n_.
Proof.
  intros Hx Hout. unfold jacobian, jacobian_loop.
  rewrite ConstraintFacts.jacobian_loop_columns
    by (apply Forall_forall; intros i Hi; apply elem_of_seq in Hi; lia).
  cbn [snd]. apply list_eq. intros i.
  destruct (decide (i < n_)%nat) as [Hi|Hi].
  - rewrite (ConstraintFacts.foldl_insert_lookup
               (fun j => combine function x j (step (x !!! j)))) by lia.
    rewrite list_lookup_fmap, lookup_seq_lt by done. done.
  - rewrite !lookup_ge_None_2; [done| |].
    + rewrite length_fmap, length_seq. lia.
    + rewrite length_foldl_insert. lia.
Qed.

Lemma jacobian_column (n_ : nat) (function : Vector -> Vector)
    (x : Vector) (out : Matrix) (j : nat) :
  length x = n_ -> length out = n_ -> (j < n_)%nat ->
  jacobian n_ function x out !! j = Some (combine function x j (step (x !!! j))).
Proof.
  intros Hx Hout Hj. rewrite jacobian_columns by done.
  rewrite list_lookup_fmap, lookup_seq_lt by done. done.
Qed.

Lemma decimals : 1.5 = 3 / 2 /\ 0.6 = 3 / 5 /\ 0.1 = 1 / 10.
Proof. repeat split; lra. Qed.

(** X1. [Constraint::jacobian] overwrites all of its output: the matrix
    written has [n_] columns and does not depend on what [out] held
    before. *)
Theorem jacobian_overwrites (n_ : nat) (function : Vector -> Vector)
    (x : Vector) (out out' : Matrix) :
  length x = n_ -> length out = n_ -> length out' = n_ ->
  length (jacobian n_ function x out) = n_ /\
  jacobian n_ function x out = jacobian n_ function x out'.
Proof.
  intros Hx Hout Hout'. rewrite !jacobian_columns by done.
  split; [|done]. by rewrite length_fmap, length_seq.
Qed.

Lemma jacobian_overwrites_witness :
  length (jacobian 2 axis_function [3; 4] [[7]; [8]]) = 2%nat /\
  jacobian 2 axis_function [3; 4] [[7]; [8]]
  = jacobian 2 axis_function [3; 4] [[0]; [0]].
Proof. apply jacobian_overwrites; reflexivity. Defined.

(** X2. The stencil is exact on polynomials of degree at most six: when the
    residual is such a polynomial of the coordinate [j], column [j] of the
    numeric Jacobian is its derivative at [x_j]. *)
Theorem jacobian_exact_sextic (n_ : nat) (a : R * R * R * R * R * R * R)
    (x : Vector) (out : Matrix) (j : nat) :
  length x = n_ -> length out = n_ -> (j < n_)%nat ->
  jacobian n_ (fun y => [sextic a (y !!! j)]) x out !! j
  = Some [sextic_derivative a (x !!! j)].
Proof.
  intros Hx Hout Hj. rewrite jacobian_column by done.
  f_equal. pose proof (ConstraintFacts.step_pos (x !!! j)) as Hh.
  unfold combine, central, vadd, vsub, vscale, vdiv.
  rewrite !list_lookup_total_insert_eq by lia. cbn.
  destruct decimals as (-> & -> & ->).
  destruct a as [[[[[[a0 a1] a2] a3] a4] a5] a6]. unfold sextic, sextic_derivative.
  f_equal. field. lra.
Qed.

Lemma jacobian_exact_sextic_witness :
  jacobian 1 (fun y => [sextic (1, 0, 0, 0, 0, 0, 2) (y !!! 0%nat)]) [1] [[0]] !! 0%nat
  = Some [sextic_derivative (1, 0, 0, 0, 0, 0, 2) ([1] !!! 0%nat)].
Proof.
  apply (jacobian_exact_sextic 1 (1, 0, 0, 0, 0, 0, 2) [1] [[0]] 0);
    [reflexivity|reflexivity|lia].
Defined.

Lemma affine_difference (fx g : Vector) (s : R) :
  s <> 0 -> length g = length fx ->
  vdiv (vsub (vadd fx (vscale s g)) (vadd fx (vscale (- s) g))) (2 * s) = g.
Proof.
  intros Hs. revert g. unfold vdiv, vsub, vadd, vscale.
  induction fx as [|a fx IH]; intros [|b g] Hlen; try done. cbn.
  f_equal; [by field|]. apply IH. by injection Hlen.
Qed.

Lemma stencil_weights (g : Vector) :
  vadd (vsub (vscale 1.5 g) (vscale 0.6 g)) (vscale 0.1 g) = g.
Proof.
  unfold vadd, vsub, vscale. induction g as [|b g IH]; [done|].
  cbn. f_equal; [lra|apply IH].
Qed.

(** X3. In exact arithmetic the numeric Jacobian is exact on a residual that
    is affine in the coordinate [j]: where moving [x_j] by [s] adds [s g] to
    the residual, column [j] is [g]. *)
Theorem jacobian_exact_affine (n_ : nat) (function : Vector -> Vector)
    (x : Vector) (out : Matrix) (j : nat) (g : Vector) :
  length x = n_ -> length out = n_ -> (j < n_)%nat ->
  length g = length (function x) ->
  (forall s : R, function (<[j := x !!! j + s]> x) = vadd (function x) (vscale s g)) ->
  jacobian n_ function x out !! j = Some g.
Proof.
  intros Hx Hout Hj Hg Haffine. rewrite jacobian_column by done.
  f_equal. pose proof (ConstraintFacts.step_pos (x !!! j)) as Hh.
  assert (Hc : forall s, s <> 0 -> central function x j s = g).
  { intros s Hs. unfold central.
    replace (x !!! j - s) with (x !!! j + - s) by lra.
    rewrite !Haffine. by apply affine_difference. }
  unfold combine. rewrite !Hc by lra. apply stencil_weights.
Qed.

Lemma jacobian_exact_affine_witness :
  jacobian 2 axis_function [3; 4] [[7]; [8]] !! 0%nat = Some [1].
Proof.
  apply (jacobian_exact_affine 2 axis_function [3; 4] [[7]; [8]] 0 [1]);
    [reflexivity|reflexivity|lia|reflexivity|].
  intros s. unfold axis_function, vadd, vscale. cbn. f_equal. lra.
Defined.

(** ** Newton projection *)

Lemma allFinite_true (x : Vector) : allFinite x = true.
Proof. unfold allFinite. induction x as [|a x IH]; [done|]. cbn. exact IH. Qed.

Lemma isSatisfied_distance (c : t) (x : Vector) :
  isSatisfied c x = true <-> distance c x <= projectionTolerance_ c.
Proof.
  unfold isSatisfied. rewrite allFinite_true. cbn [andb].
  apply bool_decide_eq_true.
Qed.

Section Project.

Variable c : t.
Variable qr_solve : Matrix -> Vector -> Vector.

Local Abbreviation max := (projectionMaxIterations_ c).
Local Abbreviation tol := (projectionTolerance_ c).
Local Abbreviation run := (newton_run c qr_solve).
Local Abbreviation project := (project c qr_solve).

(** X4. Below the largest [unsigned int] budget, a projection that returns
    [true] left its loop on the norm test: the residual norm of the point
    left in [x] is not above the tolerance. *)
Theorem project_success_within_tolerance (j0 : Matrix) (x x' : Vector) :
  (0 <= max < UINT_MAX)%Z ->
  project j0 x = Some (true, x') ->
  ~ distance c x' > tol.
Proof.
  intros Hmax Hp.
  destruct (ConstraintFacts.project_flag c qr_solve j0 x Hmax)
    as [(i & _ & _ & Hd & Hi)|[_ Hi]]; rewrite Hi in Hp; [|done].
  injection Hp as <-. lra.
Qed.

(** X5. A projection that returns [false] has spent the whole budget: [x]
    holds the result of exactly [projectionMaxIterations_] updates, no
    iterate met the tolerance, and the point left in [x] fails
    [isSatisfied]. *)
Theorem project_failure_unsatisfied (j0 : Matrix) (x x' : Vector) :
  (0 <= max <= UINT_MAX)%Z ->
  project j0 x = Some (false, x') ->
  x' = run (Z.to_nat max) x j0 /\
  (forall i, (i <= Z.to_nat max)%nat -> distance c (run i x j0) > tol) /\
  isSatisfied c x' = false.
Proof.
  intros Hmax. unfold Constraint.project.
  destruct (ConstraintFacts.project_loop_runs c qr_solve (Z.to_nat max) 0 x j0
              (S (Z.to_nat max)))
    as (i & Hi & Hbefore & [[Hd ->]|(-> & Hd & ->)]); try lia.
  - cbn. rewrite bool_decide_eq_true_2 by lia. done.
  - cbn. intros [= _ <-]. split; [done|]. split.
    + intros i Hi'. destruct (decide (i = Z.to_nat max)) as [->|]; [done|].
      apply Hbefore. lia.
    + apply not_true_is_false. rewrite isSatisfied_distance. lra.
Qed.

(** X6. With a budget in the range of [unsigned int], [project] returns,
    and the point it leaves in [x] is the result of at most
    [projectionMaxIterations_] Newton updates of the input. *)
Theorem project_within_budget (j0 : Matrix) (x : Vector) :
  (0 <= max <= UINT_MAX)%Z ->
  exists (b : bool) (i : nat), (i <= Z.to_nat max)%nat /\
    project j0 x = Some (b, run i x j0).
Proof.
  intros Hmax. unfold Constraint.project.
  destruct (ConstraintFacts.project_loop_runs c qr_solve (Z.to_nat max) 0 x j0
              (S (Z.to_nat max)))
    as (i & Hi & _ & [[_ ->]|(_ & _ & ->)]); try lia; cbn; eauto.
Qed.


(** X8. Projecting twice: after a projection that returned [true], a second
    projection returns [true] and leaves the point as it is. *)
Theorem project_twice (j0 j1 : Matrix) (x x' : Vector) :
  (0 <= max < UINT_MAX)%Z ->
  project j0 x = Some (true, x') ->
  project j1 x' = Some (true, x').
Proof.
  intros Hmax Hp.
  destruct (ConstraintFacts.project_flag c qr_solve j0 x Hmax)
    as [(i & _ & _ & Hd & Hi)|[_ Hi]]; rewrite Hi in Hp; [|done].
  injection Hp as <-. unfold Constraint.project.
  rewrite ConstraintFacts.project_loop_met by done. cbn.
  by rewrite bool_decide_eq_true_2 by lia.
Qed.

(** The loop is not entered on a point that meets the tolerance. *)
Lemma project_already_met (j0 : Matrix) (x : Vector) :
  (0 <= max)%Z -> distance c x <= tol -> project j0 x = Some (true, x).
Proof.
  intros Hmax Hd. unfold Constraint.project.
  rewrite ConstraintFacts.project_loop_met by done. cbn.
  by rewrite bool_decide_eq_true_2.
Qed.

End Project.

(** X18. With the numeric Jacobian of the base class, the result of
    [project] does not depend on what the matrix [j] holds when it is
    allocated on line 107. *)
Theorem project_ignores_matrix (c : t) (qr_solve : Matrix -> Vector -> Vector)
    (n : nat) (j0 j0' : Matrix) (x : Vector) :
  jacobian_v c = jacobian n (function c) ->
  length x = n -> length j0 = n -> length j0' = n ->
  project c qr_solve j0 x = project c qr_solve j0' x.
Proof.
  intros Hjac Hx Hj Hj'. unfold project. cbn [project_loop].
  destruct (decide (norm (function c x) > projectionTolerance_ c)); [|done].
  destruct (decide (0 < projectionMaxIterations_ c)%Z); [|done].
  rewrite Hjac. by rewrite (jacobian_columns n _ x j0), (jacobian_columns n _ x j0').
Qed.

Lemma project_ignores_matrix_witness :
  project parabola solve1 [[7]] [1] = project parabola solve1 [[0]] [1].
Proof. apply (project_ignores_matrix parabola solve1 1); reflexivity. Defined.

(** X21. The finite-difference step of line 76 is never smaller than
    [sqrt(eps)], so it is never zero. It is [sqrt(eps) * max(|x_j|, 1)] for
    every coordinate [x_j >= -1], and smaller than that for every
    [x_j < -1]. *)
Theorem step_bounds (xj : R) :
  sqrt epsilon <= step xj /\
  (-1 <= xj -> step xj = spec_step xj) /\
  (xj < -1 -> step xj < spec_step xj).
Proof.
  pose proof ConstraintFacts.sqrt_epsilon_pos as Heps. unfold step, spec_step.
  split; [destruct (decide (xj >= 1)); nra|]. split.
  - intros Hx. f_equal. destruct (decide (xj >= 1)) as [H|H].
    + rewrite Rabs_right by lra. rewrite Rmax_left; lra.
    + rewrite Rmax_right; [done|]. unfold Rabs. destruct (Rcase_abs xj); lra.
  - intros Hx. destruct (decide (xj >= 1)) as [H|H]; [lra|].
    rewrite Rabs_left by lra. rewrite Rmax_left by lra. nra.
Qed.

Lemma axis_on_line (b : R) : distance axis [0; b] <= projectionTolerance_ axis.
Proof.
  unfold distance. cbn [function projectionTolerance_ axis].
  unfold axis_function. cbn. rewrite ConstraintFacts.norm_singleton; lra.
Qed.

Lemma axis_project (b : R) :
  project axis solve1 [[0]; [0]] [0; b] = Some (true, [0; b]).
Proof. apply project_already_met; [cbn; lia|apply axis_on_line]. Qed.

Lemma stuck_project (x : Vector) :
  project stuck solve1 [[0]] x = Some (false, newton_run stuck solve1 3 x [[0]]).
Proof.
  rewrite ConstraintFacts.project_exhausted.
  - reflexivity.
  - cbn. unfold UINT_MAX. lia.
  - intros i _. unfold distance. cbn [function projectionTolerance_ stuck].
    rewrite ConstraintFacts.norm_singleton; lra.
Qed.

Lemma project_success_within_tolerance_witness :
  ~ distance axis [0; 7] > projectionTolerance_ axis.
Proof.
  apply (project_success_within_tolerance axis solve1 [[0]; [0]] [0; 7] [0; 7]).
  - unfold UINT_MAX. cbn. lia.
  - apply axis_project.
Defined.

Lemma project_failure_unsatisfied_witness :
  newton_run stuck solve1 3 [5] [[0]] = newton_run stuck solve1 (Z.to_nat 3) [5] [[0]] /\
  (forall i, (i <= Z.to_nat 3)%nat ->
     distance stuck (newton_run stuck solve1 i [5] [[0]]) > 1 / 2) /\
  isSatisfied stuck (newton_run stuck solve1 3 [5] [[0]]) = false.
Proof.
  apply (project_failure_unsatisfied stuck solve1 [[0]] [5]).
  - unfold UINT_MAX. cbn. lia.
  - apply stuck_project.
Defined.

Lemma project_within_budget_witness :
  exists (b : bool) (i : nat), (i <= Z.to_nat 50)%nat /\
    project axis solve1 [[0]; [0]] [3; 4] = Some (b, newton_run axis solve1 i [3; 4] [[0]; [0]]).
Proof.
  apply (project_within_budget axis solve1 [[0]; [0]] [3; 4]).
  unfold UINT_MAX. cbn. lia.
Defined.


Lemma project_twice_witness :
  project axis solve1 [[1]; [2]] [0; 7] = Some (true, [0; 7]).
Proof.
  apply (project_twice axis solve1 [[0]; [0]] [[1]; [2]] [0; 7] [0; 7]).
  - unfold UINT_MAX. cbn. lia.
  - apply axis_project.
Defined.

End ConstraintMore.

(** * Further properties of [traverseManifold] *)

Module TraverseMore.

Import NullspaceStateSpace Shape Instances.

Lemma linked_snoc {A : Type} (rel : A -> A -> Prop) (l : list A) (b : A) :
  linked rel l -> (forall a, last l = Some a -> rel a b) -> linked rel (l ++ [b]).
Proof.
  induction l as [|a [|a' tl] IH]; intros Hl Hlast; [done| |].
  - cbn. split; [|done]. by apply Hlast.
  - destruct Hl as [Ha Htl]. split; [done|]. apply IH; [done|].
    intros a0 Ha0. by apply Hlast.
Qed.

Lemma linked_impl {A : Type} (rel rel' : A -> A -> Prop) (l : list A) :
  (forall a b, rel a b -> rel' a b) -> linked rel l -> linked rel' l.
Proof.
  intros Himpl. induction l as [|a [|a' tl] IH]; [done..|].
  intros [Ha Htl]. split; [by apply Himpl|by apply IH].
Qed.

Lemma recorded_snoc (from : State) (pts : list State) (s : State) :
  recorded from (pts ++ [s]) = recorded from pts ++ [cloneState Scratch s].
Proof. unfold recorded. by rewrite fmap_app. Qed.

Lemma recorded_views (from : State) (pts : list State) :
  view <$> recorded from pts = from :: pts.
Proof.
  unfold recorded. cbn. f_equal. induction pts as [|p pts IH]; [done|].
  cbn. by rewrite IH.
Qed.

Lemma recorded_last (from : State) (pts : list State) (p : State) :
  last (from :: pts) = Some p ->
  exists cl, last (recorded from pts) = Some cl /\ view cl = p.
Proof.
  rewrite <- recorded_views, fmap_last. intros Hlast.
  destruct (last (recorded from pts)) as [cl|]; [|done].
  exists cl. split; [done|]. by injection Hlast.
Qed.

Lemma recorded_not_target (from : State) (pts : list State) :
  Forall (fun cl => source cl <> ToArg) (recorded from pts).
Proof.
  unfold recorded. constructor; [done|].
  apply Forall_fmap, Forall_true. done.
Qed.

Section Traverse.

Variable constraint_ : Constraint.t.
Variable n_ : nat.
Variable delta_ : R.
Variable validSegmentCount : State -> State -> Z.
Variable distance : State -> State -> R.
Variable interpolate_rv : State -> State -> R -> State.
Variable isValid : State -> bool.
Variable lu_solve : Matrix -> Vector -> Vector.
Variable lu_kernel : Matrix -> Matrix.
Variable to : State.
Variable interpolate : bool.

Local Abbreviation body :=
  (body constraint_ n_ delta_ distance interpolate_rv isValid lu_solve lu_kernel to interpolate).
Local Abbreviation corrected :=
  (corrected constraint_ n_ delta_ interpolate_rv lu_solve lu_kernel to).
Local Abbreviation while :=
  (while constraint_ n_ delta_ distance interpolate_rv isValid lu_solve lu_kernel to interpolate).
Local Abbreviation start := (start distance to).
Local Abbreviation traverseManifold :=
  (traverseManifold constraint_ n_ delta_ validSegmentCount distance interpolate_rv
     isValid lu_solve lu_kernel to interpolate).
Local Abbreviation progress := (progress distance delta_ isValid interpolate to).
Local Abbreviation hop := (hop distance delta_).
Local Abbreviation closer := (fun a b : State => distance b to < distance a to).

(** The three ways in which a run of the body ends. *)
Lemma body_cases (w : Walk) :
  (exists w', body w = Break w' /\ stateList w' = stateList w) \/
  ((interpolate = true \/ isValid (corrected w).1 = true) /\
   distance (previous w) (corrected w).1 <= 2 * delta_ /\
   ((exists w', body w = Break w' /\
       stateList w' = push_back (stateList w) (cloneState Scratch (corrected w).1) /\
       distance (corrected w).1 to >= dist w)
    \/
    (exists w', body w = Next w' /\
       previous w' = (corrected w).1 /\
       dist w' = distance (corrected w).1 to /\
       distance (corrected w).1 to < dist w /\
       stateList w' = push_back (stateList w) (cloneState Scratch (corrected w).1)))).
Proof.
  unfold NullspaceStateSpace.body. destruct (corrected w) as [s j'] eqn:Hc. cbn [fst].
  destruct (bool_decide_reflect (distance (previous w) s > 2 * delta_)) as [Hdev|Hdev].
  { left. rewrite orb_true_r. by eexists. }
  rewrite orb_false_r.
  destruct (interpolate || isValid s) eqn:Hvalid; cbn [negb].
  2: { left. by eexists. }
  right. split; [by apply orb_true_iff in Hvalid|]. split; [lra|].
  destruct (decide (distance s to >= dist w)) as [Hge|Hlt].
  - left. by eexists.
  - right. eexists. repeat split. lra.
Qed.

Section FromStart.

Variable from : State.

Local Abbreviation inv pts w :=
  (stateList w = Some (recorded from pts) /\
   last (from :: pts) = Some (previous w) /\
   dist w = distance (previous w) to /\
   linked progress (from :: pts)).

(** The list and the flag when the loop is left, from a loop head at which
    the list holds the points accepted so far. *)
Lemma while_shape (fuel : nat) : forall (w w' : Walk) (pts : list State) (there : bool),
  inv pts w -> while fuel w = Some (there, w') ->
  exists (pts' : list State) (p : State),
    linked progress (from :: pts') /\ last (from :: pts') = Some p /\
    ((there = true /\ stateList w' = Some (recorded from pts') /\
      distance p to < delta_ + epsilon)
     \/
     (there = false /\
      (stateList w' = Some (recorded from pts') \/
       exists s, stateList w' = Some (recorded from (pts' ++ [s])) /\
         distance p s <= 2 * delta_ /\
         (interpolate = true \/ isValid s = true) /\
         distance s to >= distance p to))).
Proof.
  induction fuel as [|fuel IH]; intros w w' pts there (Hl & Hlast & Hd & Hlink); [done|].
  cbn [NullspaceStateSpace.while].
  destruct (decide (dist w < delta_ + epsilon)) as [Hnear|Hfar].
  { intros [= <- <-]. exists pts, (previous w). split; [done|]. split; [done|].
    left. split; [done|]. split; [done|]. by rewrite <- Hd. }
  destruct (body_cases w) as [(w1 & -> & Hl1)|(Hvalid & Hdev & [(w1 & -> & Hl1 & Hge)|
    (w1 & -> & Hp1 & Hd1 & Hlt & Hl1)])].
  - intros [= <- <-]. exists pts, (previous w). split; [done|]. split; [done|].
    right. split; [done|]. left. by rewrite Hl1.
  - intros [= <- <-]. exists pts, (previous w). split; [done|]. split; [done|].
    right. split; [done|]. right. exists (corrected w).1.
    rewrite Hl1, Hl, recorded_snoc. split; [done|]. split; [done|]. split; [done|].
    by rewrite <- Hd.
  - apply (IH w1 w' (pts ++ [(corrected w).1])). split; [|split; [|split]].
    + by rewrite Hl1, Hl, recorded_snoc.
    + rewrite Hp1. change (from :: pts ++ [(corrected w).1])
        with ((from :: pts) ++ [(corrected w).1]). apply last_snoc.
    + by rewrite Hd1, Hp1.
    + change (from :: pts ++ [(corrected w).1])
        with ((from :: pts) ++ [(corrected w).1]).
      apply linked_snoc; [done|]. intros a Ha. rewrite Hlast in Ha. injection Ha as <-.
      split; [done|]. split; [lra|done].
Qed.

(** The flag and the list returned by [traverseManifold] when a list is
    supplied. *)
Lemma traverse_shape (fuel : nat) (j0 : Matrix) (l : list Clone)
    (there : bool) (out : StateList) :
  traverseManifold fuel j0 from (Some l) = Some (there, out) ->
  exists (pts : list State) (p : State),
    linked progress (from :: pts) /\ last (from :: pts) = Some p /\
    ((there = true /\ validSegmentCount from to = 0%Z /\ out = Some (recorded from []))
     \/
     (there = true /\ validSegmentCount from to <> 0%Z /\
      Constraint.isSatisfied constraint_ from = true /\
      out = Some (recorded from pts ++ [cloneState ToArg to]) /\
      distance p to < delta_ + epsilon)
     \/
     (there = false /\ validSegmentCount from to <> 0%Z /\
      (out = Some (recorded from pts) \/
       exists s, out = Some (recorded from (pts ++ [s])) /\
         distance p s <= 2 * delta_ /\
         (interpolate = true \/ isValid s = true) /\
         distance s to >= distance p to))).
Proof.
  unfold NullspaceStateSpace.traverseManifold.
  cbn [clear push_back fmap option_fmap option_map app].
  destruct (decide (validSegmentCount from to = 0)%Z) as [Hn|Hn].
  { intros [= <- <-]. exists [], from. split; [done|]. split; [done|]. by left. }
  destruct (Constraint.isSatisfied constraint_ from) eqn:Hsat; cbn [negb].
  2: { intros [= <- <-]. exists [], from. split; [done|]. split; [done|].
       right. right. split; [done|]. split; [done|]. by left. }
  destruct (while fuel _) as [[there' w']|] eqn:Hwhile; [|done].
  cbn. intros [= Hthere <-]. subst there'.
  destruct (while_shape fuel (start j0 from (Some [cloneState FromArg from])) w' []
              there (conj eq_refl (conj eq_refl (conj eq_refl I))) Hwhile)
    as (pts & p & Hlink & Hlast & Hend).
  exists pts, p. split; [done|]. split; [done|].
  destruct Hend as [(-> & Hl & Hnear)|(-> & Hl)].
  - right. left. rewrite Hl. done.
  - right. right. split; [done|]. split; [done|].
    destruct Hl as [Hl|(s & Hl & Hs)]; rewrite Hl; [by left|right; by exists s].
Qed.

End FromStart.

Lemma recorded_hops (pts : list State) : forall cl : Clone,
  linked progress (view cl :: pts) -> linked hop (cl :: (cloneState Scratch <$> pts)).
Proof.
  induction pts as [|p pts IH]; intros cl; [done|].
  intros [(Hnear & _ & _) Hrest]. split; [exact Hnear|].
  apply (IH (cloneState Scratch p)). exact Hrest.
Qed.

Lemma progress_valid (pts : list State) : forall hd : State,
  interpolate = false -> linked progress (hd :: pts) ->
  Forall (fun p => isValid p = true) pts.
Proof.
  induction pts as [|p pts IH]; intros hd Hi; [constructor|].
  intros [(_ & _ & [Hint|Hvalid]) Hrest]; [congruence|].
  constructor; [done|]. by apply (IH p).
Qed.

Lemma recorded_valid (from : State) (pts : list State) :
  Forall (fun p => isValid p = true) pts ->
  Forall (fun cl => source cl = Scratch -> isValid (view cl) = true) (recorded from pts).
Proof.
  intros Hpts. unfold recorded. constructor; [done|].
  apply Forall_fmap. eapply Forall_impl; [exact Hpts|]. by intros p Hp _.
Qed.

(** X10. Consecutive entries of the list returned are close: a recorded
    corrected point is within [2 delta] of the entry before it, and the copy
    of the target is nearer than [delta + epsilon] to the entry before
    it. *)
Theorem traverse_hops (fuel : nat) (j0 : Matrix) (from : State) (l : list Clone)
    (there : bool) (out : StateList) :
  traverseManifold fuel j0 from (Some l) = Some (there, out) ->
  exists path : list Clone, out = Some path /\ linked hop path.
Proof.
  intros Hrun.
  destruct (traverse_shape from fuel j0 l there out Hrun)
    as (pts & p & Hlink & Hlast & Hend).
  apply (recorded_hops pts (cloneState FromArg from)) in Hlink. fold (recorded from pts) in Hlink.
  destruct (recorded_last from pts p Hlast) as (cl & Hcl & Hview).
  destruct Hend as [(_ & _ & ->)|[(_ & _ & _ & -> & Hnear)|(_ & _ & [->|(s & -> & Hs & _)])]].
  - by eexists.
  - eexists. split; [done|]. apply linked_snoc; [done|].
    intros a Ha. rewrite Hcl in Ha. injection Ha as <-.
    unfold Shape.hop. cbn. by rewrite Hview.
  - by eexists.
  - eexists. split; [done|]. rewrite recorded_snoc. apply linked_snoc; [done|].
    intros a Ha. rewrite Hcl in Ha. injection Ha as <-.
    unfold Shape.hop. cbn. by rewrite Hview.
Qed.

(** X11. A walk that reaches the target with a segment count that is not
    zero started from a point that passes [isSatisfied]; the list returned is
    the copy of [from], the accepted points, and the copy of [to]; every
    accepted point is strictly closer to the target than the point before
    it, and the last of them is nearer than [delta + epsilon] to the
    target. *)
Theorem traverse_success_approaches (fuel : nat) (j0 : Matrix) (from : State)
    (l : list Clone) (out : StateList) :
  traverseManifold fuel j0 from (Some l) = Some (true, out) ->
  validSegmentCount from to <> 0%Z ->
  Constraint.isSatisfied constraint_ from = true /\
  exists (pts : list State) (p : State),
    out = Some (recorded from pts ++ [cloneState ToArg to]) /\
    linked closer (from :: pts) /\
    last (from :: pts) = Some p /\ distance p to < delta_ + epsilon.
Proof.
  intros Hrun Hn.
  destruct (traverse_shape from fuel j0 l true out Hrun)
    as (pts & p & Hlink & Hlast & [(_ & Hn0 & _)|[(_ & _ & Hsat & -> & Hnear)|([=] & _)]]);
    [done|].
  split; [done|]. exists pts, p. split; [done|]. split; [|done].
  eapply linked_impl; [|exact Hlink]. by intros a b (_ & Hcloser & _).
Qed.

(** X12. A walk that returns [false] had a segment count that is not zero.
    Its list holds the copy of [from] and the accepted points, each strictly
    closer to the target than the one before it, followed by at most one
    more point: a corrected point that passed the validity and deviation
    tests but is no closer to the target than the last accepted point. *)
Theorem traverse_failure_shape (fuel : nat) (j0 : Matrix) (from : State)
    (l : list Clone) (out : StateList) :
  traverseManifold fuel j0 from (Some l) = Some (false, out) ->
  validSegmentCount from to <> 0%Z /\
  exists (pts : list State) (p : State),
    linked closer (from :: pts) /\ last (from :: pts) = Some p /\
    (out = Some (recorded from pts) \/
     exists s, out = Some (recorded from (pts ++ [s])) /\
       distance p s <= 2 * delta_ /\ distance s to >= distance p to).
Proof.
  intros Hrun.
  destruct (traverse_shape from fuel j0 l false out Hrun)
    as (pts & p & Hlink & Hlast & [([=] & _)|[([=] & _)|(_ & Hn & Hout)]]).
  split; [done|]. exists pts, p. split; [|split; [done|]].
  - eapply linked_impl; [|exact Hlink]. by intros a b (_ & Hcloser & _).
  - destruct Hout as [->|(s & -> & Hs & _ & Hge)]; [by left|].
    right. by exists s.
Qed.

(** X13. When the walk does not merely interpolate, every corrected point in
    the list returned passed the state validity checker. *)
Theorem traverse_recorded_valid (fuel : nat) (j0 : Matrix) (from : State)
    (l : list Clone) (there : bool) (out : StateList) :
  interpolate = false ->
  traverseManifold fuel j0 from (Some l) = Some (there, out) ->
  exists path : list Clone, out = Some path /\
    Forall (fun cl => source cl = Scratch -> isValid (view cl) = true) path.
Proof.
  intros Hi Hrun.
  destruct (traverse_shape from fuel j0 l there out Hrun)
    as (pts & p & Hlink & Hlast & Hend).
  pose proof (recorded_valid from pts (progress_valid pts from Hi Hlink)) as Hvalid.
  destruct Hend as [(_ & _ & ->)|[(_ & _ & _ & -> & _)|(_ & _ & [->|(s & -> & _ & Hs & _)])]].
  - eexists. split; [done|]. by repeat constructor.
  - eexists. split; [done|]. apply Forall_app. split; [done|]. by repeat constructor.
  - by eexists.
  - eexists. split; [done|]. rewrite recorded_snoc. apply Forall_app. split; [done|].
    repeat constructor. intros _. cbn. destruct Hs as [Hs|Hs]; [congruence|done].
Qed.

(** X14. With a segment count of zero the walk succeeds at once, whatever the
    constraint says of [from]: the flag is [true] and a list supplied holds
    the copy of [from] only. *)
Theorem traverse_zero_segments (fuel : nat) (j0 : Matrix) (from : State)
    (collector : StateList) :
  validSegmentCount from to = 0%Z ->
  traverseManifold fuel j0 from collector
  = Some (true, (fun _ => [cloneState FromArg from]) <$> collector).
Proof.
  intros Hn. unfold NullspaceStateSpace.traverseManifold.
  destruct (decide (validSegmentCount from to = 0)%Z); [|done].
  by destruct collector.
Qed.

(** X15. From a satisfied start that is nearer than [delta] to the target,
    the loop body never runs: the flag is [true] and a list supplied holds
    the copy of [from] and the copy of [to]. *)
Theorem traverse_near_target (fuel : nat) (j0 : Matrix) (from : State)
    (collector : StateList) :
  validSegmentCount from to <> 0%Z ->
  Constraint.isSatisfied constraint_ from = true ->
  distance from to < delta_ ->
  traverseManifold (S fuel) j0 from collector
  = Some (true, (fun _ => [cloneState FromArg from; cloneState ToArg to]) <$> collector).
Proof.
  intros Hn Hsat Hnear. unfold NullspaceStateSpace.traverseManifold.
  destruct (decide (validSegmentCount from to = 0)%Z); [done|].
  rewrite Hsat. cbn [negb NullspaceStateSpace.while NullspaceStateSpace.start dist].
  pose proof ConstraintFacts.epsilon_pos.
  destruct (decide (distance from to < delta_ + epsilon)); [|lra].
  by destruct collector.
Qed.

(** Two loop heads with the same [previous], [dist] and [j] leave the loop
    with the same flag, whatever their lists. *)
Lemma while_flag (fuel : nat) : forall w1 w2 : Walk,
  previous w1 = previous w2 -> dist w1 = dist w2 -> j w1 = j w2 ->
  fst <$> while fuel w1 = fst <$> while fuel w2.
Proof.
  induction fuel as [|fuel IH]; intros [p1 d1 m1 l1] [p2 d2 m2 l2]; cbn [previous dist j];
    intros <- <- <-; [done|].
  cbn [NullspaceStateSpace.while dist].
  destruct (decide (d1 < delta_ + epsilon)); [done|].
  unfold NullspaceStateSpace.body, NullspaceStateSpace.corrected. cbn [previous dist j stateList].
  destruct (negb _ || _); [done|].
  destruct (decide (_ >= d1)); [done|].
  by apply IH.
Qed.

(** X16. The flag returned does not depend on whether a list is supplied. *)
Theorem traverse_flag_collector (fuel : nat) (j0 : Matrix) (from : State)
    (l : list Clone) :
  fst <$> traverseManifold fuel j0 from (Some l)
  = fst <$> traverseManifold fuel j0 from None.
Proof.
  unfold NullspaceStateSpace.traverseManifold.
  destruct (decide (validSegmentCount from to = 0)%Z); [done|].
  destruct (negb _); [done|].
  pose proof (while_flag fuel
    (start j0 from (push_back (clear (Some l)) (cloneState FromArg from)))
    (start j0 from (push_back (clear None) (cloneState FromArg from)))
    eq_refl eq_refl eq_refl) as Hflag.
  destruct (while fuel (start j0 from (push_back (clear (Some l)) _))) as [[t1 w1]|];
    destruct (while fuel (start j0 from (push_back (clear None) _))) as [[t2 w2]|];
    cbn in *; congruence.
Qed.

(** X20. With the numeric Jacobian of the base class, the result of the walk
    does not depend on what the matrix [j] holds when it is allocated on
    line 90. *)
Theorem traverse_ignores_matrix (fuel : nat) (j0 j0' : Matrix) (from : State)
    (collector : StateList) :
  Constraint.jacobian_v constraint_
  = Constraint.jacobian n_ (Constraint.function constraint_) ->
  length from = n_ -> length j0 = n_ -> length j0' = n_ ->
  traverseManifold fuel j0 from collector = traverseManifold fuel j0' from collector.
Proof.
  intros Hjac Hfrom Hj Hj'. unfold NullspaceStateSpace.traverseManifold.
  destruct (decide (validSegmentCount from to = 0)%Z); [done|].
  destruct (negb _); [done|].
  destruct fuel as [|fuel]; [done|]. cbn [NullspaceStateSpace.while].
  set (sl := push_back (clear collector) (cloneState FromArg from)).
  change (dist (start j0 from sl)) with (distance from to).
  change (dist (start j0' from sl)) with (distance from to).
  destruct (decide (distance from to < delta_ + epsilon)); [done|].
  assert (Hbody : forall l, body (start j0 from l) = body (start j0' from l)).
  { intros l. unfold NullspaceStateSpace.body, NullspaceStateSpace.corrected,
      NullspaceStateSpace.start.
    cbn [previous dist j stateList]. rewrite Hjac.
    by rewrite (ConstraintMore.jacobian_columns n_ _ from j0),
               (ConstraintMore.jacobian_columns n_ _ from j0'). }
  by rewrite Hbody.
Qed.

End Traverse.

Lemma traverse_ignores_matrix_witness :
  traverse_plane ground kernel_ground [1; 0] true 2 [[5]; [6]] [0; 0] (Some [])
  = traverse_plane ground kernel_ground [1; 0] true 2 [[0]; [0]] [0; 0] (Some []).
Proof.
  apply (traverse_ignores_matrix ground 2 (1 / 2) one_segment euclid lerp (fun _ => true)
           solve_zero kernel_ground [1; 0] true 2 [[5]; [6]] [[0]; [0]] [0; 0] (Some []));
    reflexivity.
Defined.

Lemma axis_walk_fails :
  traverse_plane axis kernel_canonical [1; 1] false 0 [[0]; [0]] [1; 0] (Some [])
  = Some (false, Some [cloneState FromArg [1; 0]]).
Proof.
  unfold traverse_plane, traverseManifold.
  destruct (decide (one_segment [1; 0] [1; 1] = 0%Z)) as [H|_]; [done|].
  by rewrite NullspaceFacts.axis_unsatisfied.
Qed.

Lemma traverse_hops_witness :
  exists path : list Clone,
    Some [cloneState FromArg [0; 0]; cloneState Scratch [1 / 2; 0];
          cloneState ToArg [1; 0]] = Some path /\
    linked (hop euclid (1 / 2)) path.
Proof.
  apply (traverse_hops ground 2 (1 / 2) one_segment euclid lerp (fun _ => true)
           solve_zero kernel_ground [1; 0] true 2 [[0]; [0]] [0; 0] [] true).
  apply NullspaceFacts.ground_walk.
Defined.

Lemma traverse_success_approaches_witness :
  Constraint.isSatisfied ground [0; 0] = true /\
  exists (pts : list State) (p : State),
    Some [cloneState FromArg [0; 0]; cloneState Scratch [1 / 2; 0];
          cloneState ToArg [1; 0]]
    = Some (recorded [0; 0] pts ++ [cloneState ToArg [1; 0]]) /\
    linked (fun a b : State => euclid b [1; 0] < euclid a [1; 0]) ([0; 0] :: pts) /\
    last ([0; 0] :: pts) = Some p /\ euclid p [1; 0] < 1 / 2 + epsilon.
Proof.
  apply (traverse_success_approaches ground 2 (1 / 2) one_segment euclid lerp
           (fun _ => true) solve_zero kernel_ground [1; 0] true 2 [[0]; [0]] [0; 0] []).
  - apply NullspaceFacts.ground_walk.
  - done.
Defined.

Lemma traverse_failure_shape_witness :
  one_segment [1; 0] [1; 1] <> 0%Z /\
  exists (pts : list State) (p : State),
    linked (fun a b : State => euclid b [1; 1] < euclid a [1; 1]) ([1; 0] :: pts) /\
    last ([1; 0] :: pts) = Some p /\
    (Some [cloneState FromArg [1; 0]] = Some (recorded [1; 0] pts) \/
     exists s, Some [cloneState FromArg [1; 0]] = Some (recorded [1; 0] (pts ++ [s])) /\
       euclid p s <= 2 * (1 / 2) /\ euclid s [1; 1] >= euclid p [1; 1]).
Proof.
  apply (traverse_failure_shape axis 2 (1 / 2) one_segment euclid lerp (fun _ => true)
           solve_zero kernel_canonical [1; 1] false 0 [[0]; [0]] [1; 0] []).
  apply axis_walk_fails.
Defined.

Lemma traverse_recorded_valid_witness :
  exists path : list Clone,
    Some [cloneState FromArg [0; 0]; cloneState Scratch [1 / 2; 0];
          cloneState ToArg [1; 0]] = Some path /\
    Forall (fun cl => source cl = Scratch -> (fun _ : State => true) (view cl) = true) path.
Proof.
  apply (traverse_recorded_valid ground 2 (1 / 2) one_segment euclid lerp (fun _ => true)
           solve_zero kernel_ground [1; 0] false 2 [[0]; [0]] [0; 0] [] true).
  - reflexivity.
  - apply NullspaceFacts.ground_walk.
Defined.

Lemma traverse_zero_segments_witness :
  traverseManifold axis 2 (1 / 2) no_segment euclid lerp (fun _ => true) solve_zero
    kernel_canonical [1; 0] false 0 [[0]; [0]] [1; 0] (Some [cloneState ToArg [9; 9]])
  = Some (true, Some [cloneState FromArg [1; 0]]).
Proof.
  apply (traverse_zero_segments axis 2 (1 / 2) no_segment euclid lerp (fun _ => true)
           solve_zero kernel_canonical [1; 0] false 0 [[0]; [0]] [1; 0]
           (Some [cloneState ToArg [9; 9]])).
  reflexivity.
Defined.

Lemma traverse_near_target_witness :
  traverse_plane ground kernel_ground [1 / 4; 0] false 1 [[0]; [0]] [0; 0] (Some [])
  = Some (true, Some [cloneState FromArg [0; 0]; cloneState ToArg [1 / 4; 0]]).
Proof.
  apply (traverse_near_target ground 2 (1 / 2) one_segment euclid lerp (fun _ => true)
           solve_zero kernel_ground [1 / 4; 0] false 0 [[0]; [0]] [0; 0] (Some [])).
  - done.
  - apply NullspaceFacts.ground_satisfied.
  - rewrite NullspaceFacts.euclid_ground, Rabs_left; lra.
Defined.

(** X17. A walk that interpolates never consults the state validity checker:
    with [interpolate = true] the result is the same for any two
    checkers. *)
Theorem traverse_interpolate_ignores_validity (constraint_ : Constraint.t) (n_ : nat)
    (delta_ : R) (validSegmentCount : State -> State -> Z)
    (distance : State -> State -> R) (interpolate_rv : State -> State -> R -> State)
    (isValid isValid' : State -> bool) (lu_solve : Matrix -> Vector -> Vector)
    (lu_kernel : Matrix -> Matrix) (to : State) (fuel : nat) (j0 : Matrix)
    (from : State) (collector : StateList) :
  traverseManifold constraint_ n_ delta_ validSegmentCount distance interpolate_rv
    isValid lu_solve lu_kernel to true fuel j0 from collector
  = traverseManifold constraint_ n_ delta_ validSegmentCount distance interpolate_rv
      isValid' lu_solve lu_kernel to true fuel j0 from collector.
Proof.
  unfold traverseManifold.
  destruct (decide (validSegmentCount from to = 0)%Z); [done|].
  destruct (negb _); [done|].
  assert (Hwhile : forall w,
    while constraint_ n_ delta_ distance interpolate_rv isValid lu_solve lu_kernel to
      true fuel w
    = while constraint_ n_ delta_ distance interpolate_rv isValid' lu_solve lu_kernel to
        true fuel w).
  { induction fuel as [|fuel IH]; intros w; [done|]. cbn [while].
    destruct (decide (dist w < delta_ + epsilon)); [done|].
    assert (Hbody :
      body constraint_ n_ delta_ distance interpolate_rv isValid lu_solve lu_kernel to true w
      = body constraint_ n_ delta_ distance interpolate_rv isValid' lu_solve lu_kernel to
          true w).
    { unfold body. by destruct (corrected _ _ _ _ _ _ _ w). }
    rewrite Hbody. destruct (body _ _ _ _ _ _ _ _ _ _ w); [apply IH|done]. }
  by rewrite Hwhile.
Qed.

End TraverseMore.
